(** * rediskit/cache: the Cache facade over an ioredis client

    A shallow embedding of [src/cache.ts] and [src/errors/CacheError.ts].

    - JavaScript strings are sequences of UTF-16 code units ([list N]).
    - Serializable values are JSON trees; numbers are exact decimals
      (sign, significant digits, power of ten), so the whole JSON number
      grammar has a value; IEEE rounding, NaN, the infinities and the
      negative zero are outside the model.
    - The ioredis client is an interface ([RedisClient]); [Server] is an
      in-memory instance with a clock, expiry and an outage switch.
    - A facade method is a state transformer over a [World]: the client,
      the lines written by [console.error], and two ghost fields (the
      commands sent to the client and the number of source invocations). *)

From Stdlib Require Import ZArith NArith List String Ascii Lia Decimal DecimalN.
From stdpp Require Import base option list gmap.

Local Open Scope N_scope.

(* ===================================================================== *)
(** ** JavaScript strings *)
(* ===================================================================== *)

Abbreviation js_string := (list N).

(** A string literal of the source, as code units. *)
Definition lit (s : string) : js_string :=
  List.map N_of_ascii (list_ascii_of_string s).

(** ToBoolean on a string: only the empty string is falsy. *)
Definition truthy_string (s : js_string) : bool :=
  match s with [] => false | _ :: _ => true end.

(* ===================================================================== *)
(** ** Numbers and Serializable values *)
(* ===================================================================== *)

(** [digits] are the significant decimal digits, most significant first,
    without leading or trailing zero; the value is
    [(-1)^negative * digits * 10^exponent]; zero has no digit. *)
Record Number := mkNumber {
  negative : bool;
  digits : list N;
  exponent : Z
}.

Definition zero : Number := mkNumber false [] 0.

(** [export type Serializable =
      string | number | boolean | Record<string, any> | Array<any> | null],
    down to the leaves. An object is the list of its properties in the
    order in which they are enumerated. *)
Inductive Json :=
| JNull
| JBool (b : bool)
| JNumber (n : Number)
| JString (s : js_string)
| JArray (items : list Json)
| JObject (fields : list (js_string * Json)).

Definition wf_digits (ds : list N) : Prop :=
  Forall (fun d => d < 10) ds /\ head ds <> Some 0 /\ last ds <> Some 0.

Definition wf_number (x : Number) : Prop :=
  wf_digits (digits x) /\
  (digits x = [] -> negative x = false /\ exponent x = 0%Z).

(** A value a JavaScript program can build: numbers are normalised and an
    object has each key once. *)
Inductive wf_json : Json -> Prop :=
| wf_null : wf_json JNull
| wf_bool b : wf_json (JBool b)
| wf_num n : wf_number n -> wf_json (JNumber n)
| wf_string s : wf_json (JString s)
| wf_array items : Forall wf_json items -> wf_json (JArray items)
| wf_object fields :
    NoDup (List.map fst fields) ->
    Forall (fun kv => wf_json (snd kv)) fields ->
    wf_json (JObject fields).

(** Deep equality ([toEqual]): structural, except that the order of the
    properties of an object does not matter. *)
Inductive deep_equal : Json -> Json -> Prop :=
| de_null : deep_equal JNull JNull
| de_bool b : deep_equal (JBool b) (JBool b)
| de_number n : deep_equal (JNumber n) (JNumber n)
| de_string s : deep_equal (JString s) (JString s)
| de_array xs ys : Forall2 deep_equal xs ys -> deep_equal (JArray xs) (JArray ys)
| de_object xs ys zs :
    Permutation xs zs ->
    Forall2 (fun a b => fst a = fst b /\ deep_equal (snd a) (snd b)) zs ys ->
    deep_equal (JObject xs) (JObject ys).

(* --------------------------------------------------------------------- *)
(** *** Number::toString *)
(* --------------------------------------------------------------------- *)

Definition digit_char (d : N) : N := 48 + d.

Definition print_digits (ds : list N) : js_string := List.map digit_char ds.

Fixpoint uint_digits (u : Decimal.uint) : list N :=
  match u with
  | Decimal.Nil => []
  | Decimal.D0 u => 0 :: uint_digits u
  | Decimal.D1 u => 1 :: uint_digits u
  | Decimal.D2 u => 2 :: uint_digits u
  | Decimal.D3 u => 3 :: uint_digits u
  | Decimal.D4 u => 4 :: uint_digits u
  | Decimal.D5 u => 5 :: uint_digits u
  | Decimal.D6 u => 6 :: uint_digits u
  | Decimal.D7 u => 7 :: uint_digits u
  | Decimal.D8 u => 8 :: uint_digits u
  | Decimal.D9 u => 9 :: uint_digits u
  end.

(** The decimal digits of a natural number, ["0"] for zero. *)
Definition decimal_of_N (n : N) : list N := uint_digits (N.to_uint n).

(** ECMAScript Number::toString in radix 10, for the digits [ds] (there
    are [k] of them) and [n = e + k]: plain digits when [k <= n <= 21], a
    decimal point inside when [0 < n <= 21], a leading ["0."] when
    [-6 < n <= 0], and the exponent form otherwise. *)
Definition decimal_text (ds : list N) (e : Z) : js_string :=
  let k := Z.of_nat (length ds) in
  let n := (e + k)%Z in
  if ((k <=? n) && (n <=? 21))%Z then
    print_digits ds ++ repeat 48 (Z.to_nat (n - k))
  else if ((0 <? n) && (n <=? 21))%Z then
    print_digits (take (Z.to_nat n) ds) ++ lit "."
      ++ print_digits (drop (Z.to_nat n) ds)
  else if ((-6 <? n) && (n <=? 0))%Z then
    lit "0." ++ repeat 48 (Z.to_nat (- n)) ++ print_digits ds
  else
    print_digits (take 1 ds)
      ++ match drop 1 ds with
         | [] => []
         | fraction => lit "." ++ print_digits fraction
         end
      ++ lit "e" ++ (if (n - 1 <? 0)%Z then lit "-" else lit "+")
      ++ print_digits (decimal_of_N (Z.to_N (Z.abs (n - 1)))).

Definition Number_toString (x : Number) : js_string :=
  match digits x with
  | [] => lit "0"
  | _ :: _ =>
    (if negative x then lit "-" else []) ++ decimal_text (digits x) (exponent x)
  end.

(* --------------------------------------------------------------------- *)
(** *** JSON.stringify *)
(* --------------------------------------------------------------------- *)

Definition hex_char (h : N) : N := if h <? 10 then 48 + h else 87 + h.

(** [\uXXXX] with four lower-case hexadecimal digits. *)
Definition unicode_escape (c : N) : js_string :=
  lit "\u" ++ [hex_char (c / 4096 mod 16); hex_char (c / 256 mod 16);
               hex_char (c / 16 mod 16); hex_char (c mod 16)].

Definition is_high_surrogate (c : N) : bool := (55296 <=? c) && (c <=? 56319).
Definition is_low_surrogate (c : N) : bool := (56320 <=? c) && (c <=? 57343).

(** QuoteJSONString, unit by unit: the short escapes, [\u00XX] for the
    other control characters and for a surrogate that is not part of a
    pair, every other unit as it is. [prev_high] tells whether the unit
    before is a high surrogate. *)
Definition quote_unit (prev_high : bool) (c : N) (next_low : bool) : js_string :=
  if c =? 8 then lit "\b"
  else if c =? 9 then lit "\t"
  else if c =? 10 then lit "\n"
  else if c =? 12 then lit "\f"
  else if c =? 13 then lit "\r"
  else if c =? 34 then [92; 34]
  else if c =? 92 then lit "\\"
  else if c <? 32 then unicode_escape c
  else if is_high_surrogate c then (if next_low then [c] else unicode_escape c)
  else if is_low_surrogate c then (if prev_high then [c] else unicode_escape c)
  else [c].

Fixpoint quote_units (prev_high : bool) (s : js_string) : js_string :=
  match s with
  | [] => []
  | c :: rest =>
    quote_unit prev_high c
      (match rest with d :: _ => is_low_surrogate d | [] => false end)
    ++ quote_units (is_high_surrogate c) rest
  end.

Definition JSON_quote (s : js_string) : js_string :=
  [34] ++ quote_units false s ++ [34].

Fixpoint join_comma (parts : list js_string) : js_string :=
  match parts with
  | [] => []
  | [p] => p
  | p :: rest => p ++ lit "," ++ join_comma rest
  end.

(** [JSON.stringify(value)] without indentation. *)
Fixpoint JSON_stringify (v : Json) : js_string :=
  match v with
  | JNull => lit "null"
  | JBool true => lit "true"
  | JBool false => lit "false"
  | JNumber n => Number_toString n
  | JString s => JSON_quote s
  | JArray items =>
    lit "[" ++ join_comma (List.map JSON_stringify items) ++ lit "]"
  | JObject fields =>
    lit "{"
      ++ join_comma
           (List.map (fun kv => JSON_quote (fst kv) ++ lit ":" ++ JSON_stringify (snd kv))
              fields)
      ++ lit "}"
  end.

(* --------------------------------------------------------------------- *)
(** *** JSON.parse *)
(* --------------------------------------------------------------------- *)

Definition is_ws (c : N) : bool := (c =? 32) || (c =? 9) || (c =? 10) || (c =? 13).

Fixpoint skip_ws (s : js_string) : js_string :=
  match s with
  | c :: rest => if is_ws c then skip_ws rest else s
  | [] => []
  end.

Definition is_digit (c : N) : bool := (48 <=? c) && (c <=? 57).

(** The longest run of decimal digits at the head of [s], as digit
    values, and what follows it. *)
Fixpoint take_digits (s : js_string) : list N * js_string :=
  match s with
  | c :: rest =>
    if is_digit c then
      let '(ds, rest') := take_digits rest in (c - 48 :: ds, rest')
    else ([], s)
  | [] => ([], [])
  end.

Definition digits_uint_step (d : N) (u : Decimal.uint) : Decimal.uint :=
  match d with
  | 0 => Decimal.D0 u | 1 => Decimal.D1 u | 2 => Decimal.D2 u
  | 3 => Decimal.D3 u | 4 => Decimal.D4 u | 5 => Decimal.D5 u
  | 6 => Decimal.D6 u | 7 => Decimal.D7 u | 8 => Decimal.D8 u
  | _ => Decimal.D9 u
  end.

Definition N_of_digits (ds : list N) : N :=
  N.of_uint (fold_right digits_uint_step Decimal.Nil ds).

Fixpoint strip_zeros (ds : list N) : list N :=
  match ds with
  | 0 :: rest => strip_zeros rest
  | _ => ds
  end.

(** The number [(-1)^neg * ds * 10^e] with its leading and trailing zeros
    removed. *)
Definition normalise (neg : bool) (ds : list N) (e : Z) : Number :=
  let significant := rev (strip_zeros ds) in
  let trimmed := strip_zeros significant in
  match trimmed with
  | [] => zero
  | _ :: _ =>
    mkNumber neg (rev trimmed)
      (e + Z.of_nat (length significant - length trimmed))
  end.

(** [int]: a single [0], or digits that start with another digit. *)
Definition parse_int (s : js_string) : option (list N * js_string) :=
  match s with
  | c :: rest =>
    if c =? 48 then Some ([0], rest)
    else if is_digit c then Some (take_digits s)
    else None
  | [] => None
  end.

(** [frac]: a point and at least one digit, or nothing. *)
Definition parse_frac (s : js_string) : option (list N * js_string) :=
  match s with
  | 46 :: rest =>
    match take_digits rest with
    | ([], _) => None
    | (fs, rest') => Some (fs, rest')
    end
  | _ => Some ([], s)
  end.

(** [exp]: [e] or [E], an optional sign and at least one digit, or
    nothing. *)
Definition parse_exp (s : js_string) : option (Z * js_string) :=
  match s with
  | c :: rest =>
    if (c =? 101) || (c =? 69) then
      let '(minus, rest1) :=
        match rest with
        | 45 :: r => (true, r)
        | 43 :: r => (false, r)
        | _ => (false, rest)
        end in
      match take_digits rest1 with
      | ([], _) => None
      | (es, rest2) =>
        let v := Z.of_N (N_of_digits es) in
        Some (if minus then (- v)%Z else v, rest2)
      end
    else Some (0%Z, s)
  | [] => Some (0%Z, s)
  end.

(** [int frac? exp?] after the optional minus sign. *)
Definition parse_unsigned (neg : bool) (s : js_string)
  : option (Number * js_string) :=
  '(int_ds, s1) ← parse_int s;
  '(frac_ds, s2) ← parse_frac s1;
  '(e, s3) ← parse_exp s2;
  Some (normalise neg (int_ds ++ frac_ds) (e - Z.of_nat (length frac_ds)), s3).

Definition parse_number (s : js_string) : option (Number * js_string) :=
  match s with
  | 45 :: rest => parse_unsigned true rest
  | _ => parse_unsigned false s
  end.

Definition hex_value (c : N) : option N :=
  if is_digit c then Some (c - 48)
  else if (97 <=? c) && (c <=? 102) then Some (c - 87)
  else if (65 <=? c) && (c <=? 70) then Some (c - 55)
  else None.

Definition simple_escape (e : N) : option N :=
  if e =? 34 then Some 34
  else if e =? 92 then Some 92
  else if e =? 47 then Some 47
  else if e =? 98 then Some 8
  else if e =? 102 then Some 12
  else if e =? 110 then Some 10
  else if e =? 114 then Some 13
  else if e =? 116 then Some 9
  else None.

(** The characters of a string after its opening quote, up to and
    including the closing quote. *)
Fixpoint parse_chars (s : js_string) : option (js_string * js_string) :=
  match s with
  | [] => None
  | c :: rest =>
    if c =? 34 then Some ([], rest)
    else if c =? 92 then
      match rest with
      | [] => None
      | e :: rest1 =>
        if e =? 117 then
          match rest1 with
          | h1 :: h2 :: h3 :: h4 :: rest2 =>
            match hex_value h1, hex_value h2, hex_value h3, hex_value h4 with
            | Some a, Some b, Some c', Some d =>
              match parse_chars rest2 with
              | Some (str, rest3) =>
                Some (4096 * a + 256 * b + 16 * c' + d :: str, rest3)
              | None => None
              end
            | _, _, _, _ => None
            end
          | _ => None
          end
        else
          match simple_escape e with
          | Some u =>
            match parse_chars rest1 with
            | Some (str, rest2) => Some (u :: str, rest2)
            | None => None
            end
          | None => None
          end
      end
    else if c <? 32 then None
    else
      match parse_chars rest with
      | Some (str, rest1) => Some (c :: str, rest1)
      | None => None
      end
  end.

Fixpoint expect (word s : js_string) : option js_string :=
  match word, s with
  | [], _ => Some s
  | w :: word', c :: rest => if w =? c then expect word' rest else None
  | _ :: _, [] => None
  end.

(** Defining a property: an existing key keeps its place and takes the
    new value, a new key goes last. *)
Fixpoint define_property (fields : list (js_string * Json)) (k : js_string) (v : Json)
  : list (js_string * Json) :=
  match fields with
  | [] => [(k, v)]
  | (k', v') :: rest =>
    if decide (k' = k) then (k', v) :: rest
    else (k', v') :: define_property rest k v
  end.

Definition object_of_members (members : list (js_string * Json))
  : list (js_string * Json) :=
  fold_left (fun acc kv => define_property acc (fst kv) (snd kv)) members [].

(** A value that holds no other value: a literal, a string or a
    number. *)
Definition parse_scalar (s : js_string) : option (Json * js_string) :=
  match s with
  | [] => None
  | c :: rest =>
    if c =? 110 then r ← expect (lit "ull") rest; Some (JNull, r)
    else if c =? 116 then r ← expect (lit "rue") rest; Some (JBool true, r)
    else if c =? 102 then r ← expect (lit "alse") rest; Some (JBool false, r)
    else if c =? 34 then '(str, r) ← parse_chars rest; Some (JString str, r)
    else '(n, r) ← parse_number s; Some (JNumber n, r)
  end.

(** Recursive descent; [fuel] bounds the nesting and the number of
    elements still to read. *)
Fixpoint parse_value (fuel : nat) (s : js_string) {struct fuel}
  : option (Json * js_string) :=
  match fuel with
  | O => None
  | S fuel' =>
    match skip_ws s with
    | [] => None
    | c :: rest =>
      if c =? 91 then
        match skip_ws rest with
        | 93 :: r => Some (JArray [], r)
        | _ => '(items, r) ← parse_elements fuel' rest; Some (JArray items, r)
        end
      else if c =? 123 then
        match skip_ws rest with
        | 125 :: r => Some (JObject [], r)
        | _ =>
          '(members, r) ← parse_members fuel' rest;
          Some (JObject (object_of_members members), r)
        end
      else parse_scalar (c :: rest)
    end
  end
with parse_elements (fuel : nat) (s : js_string) {struct fuel}
  : option (list Json * js_string) :=
  match fuel with
  | O => None
  | S fuel' =>
    '(v, r) ← parse_value fuel' s;
    match skip_ws r with
    | 44 :: r1 => '(vs, r2) ← parse_elements fuel' r1; Some (v :: vs, r2)
    | 93 :: r1 => Some ([v], r1)
    | _ => None
    end
  end
with parse_members (fuel : nat) (s : js_string) {struct fuel}
  : option (list (js_string * Json) * js_string) :=
  match fuel with
  | O => None
  | S fuel' =>
    match skip_ws s with
    | 34 :: r0 =>
      '(k, r1) ← parse_chars r0;
      match skip_ws r1 with
      | 58 :: r2 =>
        '(v, r3) ← parse_value fuel' r2;
        match skip_ws r3 with
        | 44 :: r4 => '(ms, r5) ← parse_members fuel' r4; Some ((k, v) :: ms, r5)
        | 125 :: r4 => Some ([(k, v)], r4)
        | _ => None
        end
      | _ => None
      end
    | _ => None
    end
  end.

(** [JSON.parse(text)]: [None] stands for the SyntaxError. Twice the
    length of the text is fuel enough for every text. *)
Definition JSON_parse (text : js_string) : option Json :=
  match parse_value (2 * length text + 2) text with
  | Some (v, rest) =>
    match skip_ws rest with
    | [] => Some v
    | _ :: _ => None
    end
  | None => None
  end.

Definition number_of_Z (z : Z) : Number :=
  normalise (z <? 0)%Z (decimal_of_N (Z.to_N (Z.abs z))) 0.

(* ===================================================================== *)
(** ** Errors *)
(* ===================================================================== *)

(** An [Error] object, as the client rejects with. *)
Record JsError := mkError {
  error_name : js_string;
  error_message : js_string
}.

(** [new Error(message)] *)
Definition new_Error (message : js_string) : JsError :=
  mkError (lit "Error") message.

(** [src/errors/CacheError.ts] *)
Record CacheError := mkCacheError {
  name : js_string;
  message : js_string;
  operation : js_string;
  originalError : JsError
}.

(** [constructor(operation, message, originalError?)]:
    [super(`Cache ${operation} operation failed: ${message}`)],
    [this.originalError = originalError || new Error(message)]. *)
Definition new_CacheError (operation message : js_string)
  (originalError : option JsError) : CacheError :=
  {| name := lit "CacheError";
     message := lit "Cache " ++ operation ++ lit " operation failed: " ++ message;
     operation := operation;
     originalError :=
       match originalError with
       | Some e => e
       | None => new_Error message
       end |}.

(** What a facade method can throw (reject with). *)
Inductive Exn :=
| ExnError (e : JsError)
| ExnCacheError (e : CacheError)
| ExnValue (v : Json).

(** How a call completes: it returns (the promise is fulfilled) or it
    throws (the promise is rejected). *)
Inductive Completion (E A : Type) :=
| Return (a : A)
| Throw (e : E).
Arguments Return {E A} a.
Arguments Throw {E A} e.

(* ===================================================================== *)
(** ** The external client *)
(* ===================================================================== *)

(** The commands the facade sends. *)
Inductive Command :=
| GET (key : js_string)
| SET (key value : js_string)
| SETEX (key : js_string) (seconds : Z) (value : js_string)
| DEL (key : js_string)
| EXISTS (key : js_string)
| FLUSHALL.

(** The part of ioredis' [Redis | Cluster] the facade uses. A command
    changes the state of the client and returns a reply or rejects with
    an [Error]. *)
Class RedisClient (R : Type) := {
  redis_get : js_string -> R -> Completion JsError (option js_string) * R;
  redis_set : js_string -> js_string -> R -> Completion JsError js_string * R;
  redis_setex : js_string -> Z -> js_string -> R -> Completion JsError js_string * R;
  redis_del : js_string -> R -> Completion JsError Z * R;
  redis_exists : js_string -> R -> Completion JsError Z * R;
  redis_flushall : R -> Completion JsError js_string * R
}.

(* ===================================================================== *)
(** ** The facade: [class Cache] *)
(* ===================================================================== *)

Record World (R : Type) := mkWorld {
  redis : R;                  (* [private readonly redis] *)
  console : list js_string;   (* lines of [console.error], oldest first *)
  wire : list Command;        (* ghost: commands sent, oldest first *)
  invoked : nat               (* ghost: calls of a source function *)
}.
Arguments mkWorld {R} redis console wire invoked.
Arguments redis {R} w.
Arguments console {R} w.
Arguments wire {R} w.
Arguments invoked {R} w.

(** A computation that may throw an [E]. *)
Definition M (R E A : Type) : Type := World R -> Completion E A * World R.

Definition ret {R E A} (a : A) : M R E A := fun w => (Return a, w).

Definition throw {R E A} (e : E) : M R E A := fun w => (Throw e, w).

Definition bind {R E A B} (m : M R E A) (k : A -> M R E B) : M R E B :=
  fun w =>
    match m w with
    | (Return a, w') => k a w'
    | (Throw e, w') => (Throw e, w')
    end.

(** [try { body } catch (error) { handler }] *)
Definition try_catch {R E E' A} (body : M R E A) (handler : E -> M R E' A)
  : M R E' A :=
  fun w =>
    match body w with
    | (Return a, w') => (Return a, w')
    | (Throw e, w') => handler e w'
    end.

Notation "'let!' x ':=' m 'in' k" := (bind m (fun x => k))
  (at level 10, x name, m at level 100, k at level 200).

Definition console_error {R E} (line : js_string) : M R E unit :=
  fun w => (Return tt, mkWorld (redis w) (console w ++ [line]) (wire w) (invoked w)).

(** [await this.redis.<command>(...)]: run the command on the client and
    record it. *)
Definition send {R A} (c : Command) (run : R -> Completion JsError A * R)
  : M R JsError A :=
  fun w =>
    let '(reply, r') := run (redis w) in
    (reply, mkWorld r' (console w) (wire w ++ [c]) (invoked w)).

(** [type Callback<T> = T | (() => Promise<T> | T)]: a value, or a
    function that returns one (or throws); the function may use the
    store. *)
Inductive Callback (R : Type) :=
| Literal (v : Json)
| Producer (f : R -> Completion Exn Json * R).
Arguments Literal {R} v.
Arguments Producer {R} f.

(** ToBoolean on a whole number: only [0] is falsy. *)
Definition truthy_number (t : Z) : bool := negb (t =? 0)%Z.

(** An error that no [catch] of the facade sees goes to the caller as
    it is. *)
Definition uncaught {R A} (m : M R JsError A) : M R Exn A :=
  fun w =>
    match m w with
    | (Return a, w') => (Return a, w')
    | (Throw e, w') => (Throw (ExnError e), w')
    end.

Section Cache.

Context {R : Type} `{RedisClient R}.

(** [private serialize<T>(data: T): string]. [JSON.stringify] does not
    throw on a JSON tree, so the [catch] of the source is not reached. *)
Definition serialize (data : Json) : js_string :=
  match data with
  | JString s => s
  | JNumber n => Number_toString n
  | JBool true => lit "true"
  | JBool false => lit "false"
  | _ => JSON_stringify data
  end.

(** [private parse<T>(data: string): T] *)
Definition parse (data : js_string) : Json :=
  match JSON_parse data with
  | Some v => v
  | None => JString data
  end.

(** [private handleError<T>(operation, error, fallback?: T): T | null] *)
Definition handleError (operation : js_string) (error : JsError)
  (fallback : option Json) : M R Exn Json :=
  let message :=
    lit "Cache " ++ operation ++ lit " operation failed: " ++ error_message error in
  let! _ := console_error message in
  match fallback with
  | Some v => ret v
  | None => throw (ExnCacheError (new_CacheError operation message None))
  end.

(** [async get<T>(key: string): Promise<T | null>] *)
Definition get (key : js_string) : M R Exn Json :=
  try_catch
    (let! data := send (GET key) (redis_get key) in
     ret (match data with
          | Some text => if truthy_string text then parse text else JNull
          | None => JNull
          end))
    (fun error => handleError (lit "GET") error (Some JNull)).

(** [async set<T>(key: string, value: T, ttl?: number): Promise<'OK'>];
    [ttl ? setex : set] takes the plain write for [undefined] and for
    [0]. *)
Definition set (key : js_string) (value : Json) (ttl : option Z)
  : M R Exn js_string :=
  try_catch
    (let serialized := serialize value in
     match ttl with
     | Some t =>
       if truthy_number t
       then send (SETEX key t serialized) (redis_setex key t serialized)
       else send (SET key serialized) (redis_set key serialized)
     | None => send (SET key serialized) (redis_set key serialized)
     end)
    (fun error =>
       let! v := handleError (lit "SET") error None in
       throw (ExnValue v)).

(** [private async resolve<T>(valueOrCallback)] *)
Definition resolve (valueOrCallback : Callback R) : M R Exn Json :=
  match valueOrCallback with
  | Producer f =>
    fun w =>
      let '(result, r') := f (redis w) in
      (result, mkWorld r' (console w) (wire w) (S (invoked w)))
  | Literal v => ret v
  end.

Definition is_null (v : Json) : bool :=
  match v with JNull => true | _ => false end.

(** [async remember<T>(key, ttl: number, callback): Promise<T>] *)
Definition remember (key : js_string) (ttl : Z) (callback : Callback R)
  : M R Exn Json :=
  let! cached := get key in
  if negb (is_null cached) then ret cached
  else
    let! result := resolve callback in
    let! _ := set key result (Some ttl) in
    ret result.

(** [async forever<T>(key, callback): Promise<T>] *)
Definition forever (key : js_string) (callback : Callback R) : M R Exn Json :=
  let! cached := get key in
  if negb (is_null cached) then ret cached
  else
    let! result := resolve callback in
    let! _ := set key result None in
    ret result.

(** [async delete(key: string): Promise<number>] *)
Definition delete (key : js_string) : M R Exn Z :=
  try_catch
    (send (DEL key) (redis_del key))
    (fun error =>
       let! v := handleError (lit "DELETE") error None in
       throw (ExnValue v)).

(** [async flush(): Promise<'OK'>] *)
Definition flush : M R Exn js_string :=
  try_catch
    (send FLUSHALL redis_flushall)
    (fun error =>
       let! v := handleError (lit "FLUSH") error (Some (JString (lit "OK"))) in
       throw (ExnValue v)).

(** [async exists(key: string): Promise<boolean>]: no [try]. *)
Definition exists_ (key : js_string) : M R Exn bool :=
  uncaught
    (let! count := send (EXISTS key) (redis_exists key) in
     ret (0 <? count)%Z).

End Cache.

(* ===================================================================== *)
(** ** An in-memory store behind the client *)
(* ===================================================================== *)

Record Entry := mkEntry {
  payload : js_string;
  deadline : option Z   (* the second at which the entry expires *)
}.

Record Server := mkServer {
  clock : Z;
  db : gmap js_string Entry;
  outage : option JsError   (* when set, every command is rejected with it *)
}.

Definition live (s : Server) (key : js_string) : option Entry :=
  match db s !! key with
  | Some e =>
    match deadline e with
    | Some d => if (clock s <? d)%Z then Some e else None
    | None => Some e
    end
  | None => None
  end.

Definition answer {A} (s : Server) (run : Completion JsError A * Server)
  : Completion JsError A * Server :=
  match outage s with
  | Some e => (Throw e, s)
  | None => run
  end.

Definition store (key : js_string) (e : Entry) (s : Server) : Server :=
  mkServer (clock s) (<[key := e]> (db s)) (outage s).

Definition server_get (key : js_string) (s : Server) :=
  answer s (Return (payload <$> live s key), s).

Definition server_set (key value : js_string) (s : Server) :=
  answer s (Return (lit "OK"), store key (mkEntry value None) s).

(** SETEX refuses a time that is not positive. *)
Definition server_setex (key : js_string) (seconds : Z) (value : js_string)
  (s : Server) :=
  answer s
    (if (0 <? seconds)%Z
     then (Return (lit "OK"),
           store key (mkEntry value (Some (clock s + seconds)%Z)) s)
     else (Throw (mkError (lit "ReplyError")
                    (lit "ERR invalid expire time in 'setex' command")), s)).

Definition server_del (key : js_string) (s : Server) :=
  answer s
    (match live s key with
     | Some _ =>
       (Return 1%Z, mkServer (clock s) (base.delete key (db s)) (outage s))
     | None => (Return 0%Z, s)
     end).

Definition server_exists (key : js_string) (s : Server) :=
  answer s
    (Return (match live s key with Some _ => 1%Z | None => 0%Z end), s).

Definition server_flushall (s : Server) :=
  answer s (Return (lit "OK"), mkServer (clock s) ∅ (outage s)).

(** [dt] seconds pass. *)
Definition elapse (dt : Z) (s : Server) : Server :=
  mkServer (clock s + dt)%Z (db s) (outage s).

#[export] Instance Server_client : RedisClient Server := {
  redis_get := server_get;
  redis_set := server_set;
  redis_setex := server_setex;
  redis_del := server_del;
  redis_exists := server_exists;
  redis_flushall := server_flushall
}.

(** A facade on a fresh process: nothing logged, nothing sent. *)
Definition boot (s : Server) : World Server := mkWorld s [] [] 0%nat.

(* ===================================================================== *)
(** ** Construction *)
(* ===================================================================== *)

Module Construction.

(** The two client classes of ioredis. The library declares
    [class Redis extends Commander] and [class Cluster extends Commander];
    [Redis.Cluster] is a static member of [Redis], not a subclass of it,
    so a cluster client is not an [instanceof Redis]. *)
Inductive ClientClass := RedisClass | ClusterClass.

Definition subclass_of_Redis (c : ClientClass) : bool :=
  match c with RedisClass => true | ClusterClass => false end.

Record ClusterNode := mkNode { host : js_string; port : Z }.

(** An argument of a constructor: a port, a host or path, an options
    object, a list of cluster nodes, or a reference to an object on the
    heap. *)
Inductive Arg :=
| ArgNumber (n : Z)
| ArgString (s : js_string)
| ArgOptions (o : Json)
| ArgNodes (nodes : list ClusterNode)
| ArgObject (ref : nat).

(** A client object; each one holds its own connection. *)
Record ClientObject := mkClient {
  class_of : ClientClass;
  built_with : list Arg
}.

Abbreviation Heap := (list ClientObject).

(** [x instanceof Redis] *)
Definition instanceof_Redis (h : Heap) (x : option Arg) : bool :=
  match x with
  | Some (ArgObject ref) =>
    match h !! ref with
    | Some o => subclass_of_Redis (class_of o)
    | None => false
    end
  | _ => false
  end.

Definition allocate (o : ClientObject) (h : Heap) : nat * Heap :=
  (length h, h ++ [o]).

(** [new Redis(...args)] *)
Definition new_Redis (args : list Arg) (h : Heap) : nat * Heap :=
  allocate (mkClient RedisClass args) h.

(** [new Redis.Cluster(nodes, options)] *)
Definition new_Cluster (nodes : list ClusterNode) (options : option Json)
  (h : Heap) : nat * Heap :=
  allocate
    (mkClient ClusterClass
       (ArgNodes nodes
          :: match options with Some o => [ArgOptions o] | None => [] end))
    h.

Record Cache := mkCache { redis : nat }.

(** [constructor(...args: any[])] *)
Definition new_Cache (args : list Arg) (h : Heap) : Cache * Heap :=
  if instanceof_Redis h (head args) then
    match head args with
    | Some (ArgObject ref) => (mkCache ref, h)
    | _ => let '(ref, h') := new_Redis args h in (mkCache ref, h')
    end
  else
    let '(ref, h') := new_Redis args h in (mkCache ref, h').

(** [static Cluster(nodes: ClusterNode[], options?: ClusterOptions): Cache] *)
Definition Cluster (nodes : list ClusterNode) (options : option Json)
  (h : Heap) : Cache * Heap :=
  let '(cluster, h1) := new_Cluster nodes options h in
  new_Cache [ArgObject cluster] h1.

(** [client(): Redis | Cluster] *)
Definition client (c : Cache) : nat := redis c.

End Construction.

(* ===================================================================== *)
(** ** Vocabulary of the statements *)
(* ===================================================================== *)

Section Vocabulary.

Context {R : Type} `{RedisClient R}.

(** The world after command [c] took the client to [r]. *)
Definition sent (w : World R) (r : R) (c : Command) : World R :=
  mkWorld r (console w) (wire w ++ [c]) (invoked w).

(** The same, with one more line on the console. *)
Definition logged (w : World R) (r : R) (c : Command) (line : js_string)
  : World R :=
  mkWorld r (console w ++ [line]) (wire w ++ [c]) (invoked w).

(** The command [set] sends. *)
Definition write_command (key : js_string) (value : Json) (ttl : option Z)
  : Command :=
  match ttl with
  | Some t =>
    if (t =? 0)%Z then SET key (serialize value)
    else SETEX key t (serialize value)
  | None => SET key (serialize value)
  end.

(** A write command, run on the client. *)
Definition run_write (c : Command) (r : R) : Completion JsError js_string * R :=
  match c with
  | SET key value => redis_set key value r
  | SETEX key t value => redis_setex key t value r
  | _ => (Return [], r)
  end.

End Vocabulary.

(* ===================================================================== *)
(** ** Vocabulary of the round trip *)
(* ===================================================================== *)

(** What may follow a number in a text: nothing that the number token
    would absorb. *)
Definition number_end (rest : js_string) : bool :=
  match rest with
  | [] => true
  | c :: _ => negb (is_digit c || (c =? 46) || (c =? 101) || (c =? 69))
  end.

(** Fuel that reads a value back from its text. *)
Fixpoint weight (v : Json) : nat :=
  match v with
  | JArray items => S (list_sum (List.map (fun x => S (weight x)) items))
  | JObject fields =>
    S (list_sum (List.map (fun kv => S (weight (snd kv))) fields))
  | _ => 1
  end.

(** The next character, if any, is not a decimal digit. *)
Definition no_digit_ahead (s : js_string) : Prop :=
  match s with c :: _ => is_digit c = false | [] => True end.

(** A character put in front of the string that was read, if any. *)
Definition consing (c : N) (r : option (js_string * js_string))
  : option (js_string * js_string) :=
  match r with
  | Some (str, rest) => Some (c :: str, rest)
  | None => None
  end.

(** The text of [v] is read back as [v], whatever follows it. *)
Definition reads_back (v : Json) : Prop :=
  wf_json v ->
  forall fuel rest,
    (weight v <= fuel)%nat -> number_end rest = true ->
    parse_value fuel (JSON_stringify v ++ rest) = Some (v, rest).

(** A value whose stored text is read as that value: anything but a
    string, and a string that is neither empty nor a JSON text. *)
Definition unambiguous (v : Json) : Prop :=
  match v with
  | JString s => s <> [] /\ JSON_parse s = None
  | _ => True
  end.

(** The world [dt] seconds later. *)
Definition later (dt : Z) (w : World Server) : World Server :=
  mkWorld (elapse dt (redis w)) (console w) (wire w) (invoked w).

(** A result obtained with fuel [f] consumed input, and is obtained with
    any fuel from twice the number of characters consumed. *)
Definition fuel_bound {A} (parser : nat -> js_string -> option (A * js_string))
  (f : nat) : Prop :=
  forall s x r,
    parser f s = Some (x, r) ->
    (length r < length s)%nat
    /\ forall f', (2 * (length s - length r) <= S f')%nat ->
                  parser f' s = Some (x, r).

(* ===================================================================== *)
(** * Properties *)
(* ===================================================================== *)

(* --------------------------------------------------------------------- *)
(** ** Digits *)
(* --------------------------------------------------------------------- *)

Lemma is_digit_char d : d < 10 -> is_digit (digit_char d) = true.
Proof.
  intros Hd. unfold is_digit, digit_char.
  apply andb_true_intro. split; apply N.leb_le; lia.
Qed.

Lemma digit_char_value d : digit_char d - 48 = d.
Proof. unfold digit_char. lia. Qed.

Lemma take_digits_stop s : number_end s = true -> take_digits s = ([], s).
Proof.
  destruct s as [|c s]; [reflexivity|]. simpl. intros Hend.
  destruct (is_digit c); [discriminate|reflexivity].
Qed.

Lemma take_digits_print ds s :
  Forall (fun d => d < 10) ds ->
  take_digits (print_digits ds ++ s)
  = (ds ++ fst (take_digits s), snd (take_digits s)).
Proof.
  induction 1 as [|d ds Hd _ IH]; simpl.
  - now destruct (take_digits s).
  - rewrite (is_digit_char d Hd), IH, digit_char_value. reflexivity.
Qed.

Lemma take_digits_exact ds s :
  Forall (fun d => d < 10) ds ->
  match s with c :: _ => is_digit c = false | [] => True end ->
  take_digits (print_digits ds ++ s) = (ds, s).
Proof.
  intros Hds Hs. rewrite take_digits_print by assumption.
  destruct s as [|c s]; simpl; [now rewrite app_nil_r|].
  rewrite Hs. simpl. now rewrite app_nil_r.
Qed.

Lemma print_zeros j : repeat 48 j = print_digits (repeat 0 j).
Proof. induction j; simpl; [reflexivity|]. now rewrite IHj. Qed.

Lemma zeros_are_digits j : Forall (fun d => d < 10) (repeat 0 j).
Proof. induction j; simpl; constructor; [lia|assumption]. Qed.

Lemma uint_digits_inverse u :
  fold_right digits_uint_step Decimal.Nil (uint_digits u) = u.
Proof. induction u; simpl; congruence. Qed.

Lemma uint_digits_small u : Forall (fun d => d < 10) (uint_digits u).
Proof. induction u; simpl; constructor; (lia || assumption). Qed.

Lemma N_of_decimal n : N_of_digits (decimal_of_N n) = n.
Proof.
  unfold N_of_digits, decimal_of_N. rewrite uint_digits_inverse.
  apply DecimalN.Unsigned.of_to.
Qed.

Lemma decimal_of_N_small n : Forall (fun d => d < 10) (decimal_of_N n).
Proof. apply uint_digits_small. Qed.

Lemma decimal_of_N_nonempty n : decimal_of_N n <> [].
Proof.
  unfold decimal_of_N. intros Hnil.
  assert (Hu : N.to_uint n = Decimal.Nil).
  { rewrite <- (uint_digits_inverse (N.to_uint n)), Hnil. reflexivity. }
  pose proof (DecimalN.Unsigned.of_to n) as Hback.
  rewrite Hu in Hback. simpl in Hback. subst n. discriminate Hu.
Qed.

Lemma strip_zeros_id ds : head ds <> Some 0 -> strip_zeros ds = ds.
Proof. destruct ds as [|[|p] ds]; simpl; congruence. Qed.

Lemma strip_zeros_leading i ds : strip_zeros (repeat 0 i ++ ds) = strip_zeros ds.
Proof. induction i; simpl; auto. Qed.

Lemma head_rev (ds : list N) : head (rev ds) = last ds.
Proof.
  induction ds as [|d ds _] using rev_ind; [reflexivity|].
  now rewrite rev_app_distr, last_snoc.
Qed.

(** Zeros around the significant digits only move the exponent. *)
Lemma normalise_padded neg i j ds e :
  ds <> [] -> head ds <> Some 0 -> last ds <> Some 0 ->
  normalise neg (repeat 0 i ++ ds ++ repeat 0 j) e
  = mkNumber neg ds (e + Z.of_nat j).
Proof.
  intros Hne Hhead Hlast. unfold normalise.
  rewrite strip_zeros_leading.
  rewrite (strip_zeros_id (ds ++ repeat 0 j)).
  2:{ destruct ds; [contradiction|assumption]. }
  rewrite rev_app_distr, rev_repeat, strip_zeros_leading.
  rewrite (strip_zeros_id (rev ds)) by now rewrite head_rev.
  destruct (rev ds) as [|d rds] eqn:Hrev.
  { apply (f_equal (@rev N)) in Hrev. rewrite rev_involutive in Hrev.
    now subst ds. }
  rewrite <- Hrev, rev_involutive, length_app, repeat_length.
  do 2 f_equal. lia.
Qed.

Lemma normalise_exact neg ds e :
  ds <> [] -> head ds <> Some 0 -> last ds <> Some 0 ->
  normalise neg ds e = mkNumber neg ds e.
Proof.
  intros Hne Hhead Hlast.
  pose proof (normalise_padded neg 0 0 ds e Hne Hhead Hlast) as Hpad.
  simpl in Hpad. rewrite app_nil_r, Z.add_0_r in Hpad. exact Hpad.
Qed.

(* --------------------------------------------------------------------- *)
(** ** Numbers: the text read back *)
(* --------------------------------------------------------------------- *)

Lemma number_end_no_digit s : number_end s = true -> no_digit_ahead s.
Proof.
  destruct s as [|c s]; simpl; [trivial|]. now destruct (is_digit c).
Qed.

Lemma parse_int_digits ds s :
  Forall (fun d => d < 10) ds -> ds <> [] -> head ds <> Some 0 ->
  no_digit_ahead s ->
  parse_int (print_digits ds ++ s) = Some (ds, s).
Proof.
  intros Hds Hne Hhead Hs.
  pose proof (take_digits_exact ds s Hds Hs) as Htake.
  destruct ds as [|d ds]; [contradiction|].
  inversion Hds as [|? ? Hd _]; subst.
  unfold parse_int. rewrite Htake. simpl.
  destruct (N.eqb_spec (digit_char d) 48) as [Heq|_].
  - unfold digit_char in Heq. simpl in Hhead.
    assert (d = 0) by lia. congruence.
  - now rewrite (is_digit_char d Hd).
Qed.

Lemma parse_frac_digits fs s :
  Forall (fun d => d < 10) fs -> fs <> [] -> no_digit_ahead s ->
  parse_frac (46 :: print_digits fs ++ s) = Some (fs, s).
Proof.
  intros Hfs Hne Hs. unfold parse_frac.
  rewrite (take_digits_exact fs s Hfs Hs).
  destruct fs; [contradiction|reflexivity].
Qed.

Lemma parse_frac_none s :
  match s with c :: _ => c <> 46 | [] => True end ->
  parse_frac s = Some ([], s).
Proof.
  destruct s as [|c s]; [reflexivity|]. intros Hc. unfold parse_frac.
  destruct c as [|p]; [reflexivity|].
  do 6 (destruct p as [p|p|]; try reflexivity). contradiction.
Qed.

Lemma parse_exp_none s :
  match s with c :: _ => c <> 101 /\ c <> 69 | [] => True end ->
  parse_exp s = Some (0%Z, s).
Proof.
  destruct s as [|c s]; [reflexivity|]. intros [H1 H2]. unfold parse_exp.
  destruct (N.eqb_spec c 101); [contradiction|].
  destruct (N.eqb_spec c 69); [contradiction|]. reflexivity.
Qed.

Lemma number_end_spec s :
  number_end s = true ->
  no_digit_ahead s
  /\ match s with c :: _ => c <> 46 | [] => True end
  /\ match s with c :: _ => c <> 101 /\ c <> 69 | [] => True end.
Proof.
  destruct s as [|c s]; simpl; [auto|].
  destruct (is_digit c); [discriminate|].
  destruct (N.eqb_spec c 46); [discriminate|].
  destruct (N.eqb_spec c 101); [discriminate|].
  destruct (N.eqb_spec c 69); [discriminate|]. auto.
Qed.

Lemma parse_exp_signed (m : Z) s :
  no_digit_ahead s ->
  parse_exp (lit "e" ++ (if (m <? 0)%Z then lit "-" else lit "+")
               ++ print_digits (decimal_of_N (Z.to_N (Z.abs m))) ++ s)
  = Some (m, s).
Proof.
  intros Hs.
  pose proof (take_digits_exact (decimal_of_N (Z.to_N (Z.abs m))) s
                (decimal_of_N_small _) Hs) as Htake.
  pose proof (decimal_of_N_nonempty (Z.to_N (Z.abs m))) as Hne.
  unfold parse_exp. simpl.
  destruct (Z.ltb_spec m 0); simpl; rewrite Htake;
    destruct (decimal_of_N (Z.to_N (Z.abs m))) eqn:Hdec; try contradiction;
    rewrite <- Hdec, N_of_decimal; do 2 f_equal; lia.
Qed.

Lemma print_digits_app a b : print_digits (a ++ b) = print_digits a ++ print_digits b.
Proof. apply map_app. Qed.

Lemma head_app_nonempty (a b : list N) : a <> [] -> head (a ++ b) = head a.
Proof. now destruct a. Qed.

Lemma normalise_trailing neg j ds e :
  ds <> [] -> head ds <> Some 0 -> last ds <> Some 0 ->
  normalise neg (ds ++ repeat 0 j) e = mkNumber neg ds (e + Z.of_nat j).
Proof. intros. now apply (normalise_padded neg 0 j ds e). Qed.

Lemma normalise_leading neg i ds e :
  ds <> [] -> head ds <> Some 0 -> last ds <> Some 0 ->
  normalise neg (repeat 0 i ++ ds) e = mkNumber neg ds e.
Proof.
  intros Hne Hhead Hlast.
  pose proof (normalise_padded neg i 0 ds e Hne Hhead Hlast) as Hpad.
  simpl repeat in Hpad. now rewrite app_nil_r, Z.add_0_r in Hpad.
Qed.

Ltac bind_step := change (Some ?x ≫= ?f) with (f x); cbv beta iota.

(** The digits and the exponent are read back from each of the four
    forms of the text. *)
Lemma parse_decimal_text neg ds e rest :
  Forall (fun d => d < 10) ds -> ds <> [] ->
  head ds <> Some 0 -> last ds <> Some 0 ->
  number_end rest = true ->
  parse_unsigned neg (decimal_text ds e ++ rest) = Some (mkNumber neg ds e, rest).
Proof.
  intros Hds Hne Hhead Hlast Hend.
  destruct (number_end_spec rest Hend) as (Hnodigit & Hnopoint & Hnoexp).
  unfold decimal_text, parse_unsigned.
  remember (Z.of_nat (length ds)) as k eqn:Hlen.
  remember (e + k)%Z as n eqn:Hn.
  assert (Hk : (0 < k)%Z) by (destruct ds; [contradiction|simpl in Hlen; lia]).
  destruct ((k <=? n) && (n <=? 21))%Z eqn:Hplain.
  { (* digits and zeros *)
    rewrite print_zeros, <- print_digits_app.
    rewrite parse_int_digits; try assumption.
    - bind_step. rewrite parse_frac_none by assumption. bind_step.
      rewrite parse_exp_none by assumption. bind_step. rewrite app_nil_r.
      rewrite normalise_trailing by assumption.
      do 3 f_equal. simpl length in *. apply andb_prop in Hplain as [Hkn _].
      apply Z.leb_le in Hkn. lia.
    - apply Forall_app. split; [assumption|apply zeros_are_digits].
    - now destruct ds.
    - now rewrite head_app_nonempty. }
  destruct ((0 <? n) && (n <=? 21))%Z eqn:Hpoint.
  { (* a point inside *)
    apply andb_prop in Hpoint as [Hn0 Hn21]. apply Z.ltb_lt in Hn0.
    apply Z.leb_le in Hn21.
    assert (Hnk : (n < k)%Z).
    { apply andb_false_iff in Hplain as [Hf|Hf];
        [apply Z.leb_gt in Hf; lia | apply Z.leb_gt in Hf; lia]. }
    rewrite <- !app_assoc. change (lit "." ++ ?x) with (46 :: x).
    assert (Htake : take (Z.to_nat n) ds <> []).
    { destruct ds; [contradiction|]. destruct (Z.to_nat n) eqn:Hz; [lia|].
      discriminate. }
    assert (Hdrop : drop (Z.to_nat n) ds <> []).
    { intros Hnil. apply (f_equal length) in Hnil.
      rewrite length_drop in Hnil. simpl in Hnil. lia. }
    rewrite parse_int_digits.
    - bind_step. rewrite parse_frac_digits; try assumption.
      + bind_step. rewrite parse_exp_none by assumption. bind_step.
        rewrite take_drop, normalise_exact by assumption.
        do 3 f_equal. simpl length in *. rewrite length_drop. lia.
      + now apply Forall_drop.
    - now apply Forall_take.
    - assumption.
    - destruct ds; [contradiction|]. destruct (Z.to_nat n) eqn:Hz; [lia|assumption].
    - reflexivity. }
  destruct ((-6 <? n) && (n <=? 0))%Z eqn:Hsmall.
  { (* a leading 0. *)
    apply andb_prop in Hsmall as [_ Hn0]. apply Z.leb_le in Hn0.
    rewrite print_zeros, <- !app_assoc, (app_assoc (print_digits _)).
    rewrite <- print_digits_app.
    change (parse_int (lit "0." ++ ?x)) with (Some ([0], 46 :: x)). bind_step.
    rewrite parse_frac_digits; try assumption.
    - bind_step. rewrite parse_exp_none by assumption. bind_step.
      change ([0] ++ repeat 0 ?z ++ ds) with (repeat 0 (S z) ++ ds).
      rewrite normalise_leading by assumption.
      do 3 f_equal. simpl length in *. rewrite length_app, repeat_length. lia.
    - apply Forall_app. split; [apply zeros_are_digits|assumption].
    - destruct ds; [contradiction|]. now destruct (repeat 0 (Z.to_nat (- n))). }
  (* the exponent form *)
  destruct ds as [|d ds']; [contradiction|].
  inversion Hds as [|? ? Hd Hds']; subst.
  change (take 1 (d :: ds')) with [d]. change (drop 1 (d :: ds')) with ds'.
  rewrite <- !app_assoc.
  destruct ds' as [|d' ds'']; cbv iota.
  - rewrite app_nil_l.
    rewrite parse_int_digits;
      [|repeat constructor; assumption|discriminate|assumption|reflexivity].
    bind_step. rewrite parse_frac_none by discriminate. bind_step.
    rewrite parse_exp_signed by assumption. bind_step.
    rewrite normalise_exact by (assumption || discriminate).
    do 3 f_equal. simpl length in *. lia.
  - rewrite <- app_assoc. change (lit "." ++ ?x) with (46 :: x).
    rewrite parse_int_digits;
      [|repeat constructor; assumption|discriminate|assumption|reflexivity].
    bind_step. rewrite parse_frac_digits; [|assumption|discriminate|reflexivity].
    bind_step. rewrite parse_exp_signed by assumption. bind_step.
    rewrite normalise_exact by (assumption || discriminate).
    do 3 f_equal. simpl length in *. lia.
Qed.

Lemma decimal_text_head ds e :
  Forall (fun d => d < 10) ds -> ds <> [] ->
  exists c t, decimal_text ds e = c :: t /\ is_digit c = true.
Proof.
  intros Hds Hne. destruct ds as [|d ds]; [contradiction|].
  inversion Hds as [|? ? Hd _]; subst.
  pose proof (is_digit_char d Hd) as Hdigit.
  assert (Hfound : forall t, exists c' t', digit_char d :: t = c' :: t'
                                         /\ is_digit c' = true)
    by (intros t; now exists (digit_char d), t).
  unfold decimal_text.
  remember (Z.of_nat (length (d :: ds))) as k eqn:Hlen.
  remember (e + k)%Z as n eqn:Hn.
  destruct ((k <=? n) && (n <=? 21))%Z; [apply Hfound|].
  destruct ((0 <? n) && (n <=? 21))%Z eqn:Hpoint.
  { apply andb_prop in Hpoint as [Hpos _]. apply Z.ltb_lt in Hpos.
    destruct (Z.to_nat n) eqn:Hz; [lia|]. apply Hfound. }
  destruct ((-6 <? n) && (n <=? 0))%Z; [|apply Hfound].
  eexists 48, _. split; reflexivity.
Qed.

Lemma parse_number_unsigned c t :
  c <> 45 -> parse_number (c :: t) = parse_unsigned false (c :: t).
Proof.
  intros Hc. unfold parse_number. destruct c as [|p]; [reflexivity|].
  do 6 (destruct p as [p|p|]; try reflexivity). contradiction.
Qed.

(** A number is read back from its text. *)
Lemma parse_number_text x rest :
  wf_number x -> number_end rest = true ->
  parse_number (Number_toString x ++ rest) = Some (x, rest).
Proof.
  destruct x as [neg ds e]. intros [(Hds & Hhead & Hlast) Hzero] Hend.
  simpl in *. unfold Number_toString. simpl digits.
  destruct ds as [|d ds'].
  - destruct (Hzero eq_refl) as [-> ->].
    destruct (number_end_spec rest Hend) as (_ & Hnopoint & Hnoexp).
    change (parse_number (lit "0" ++ rest)) with (parse_unsigned false (48 :: rest)).
    unfold parse_unsigned.
    change (parse_int (48 :: rest)) with (Some ([0], rest)). bind_step.
    rewrite parse_frac_none by assumption. bind_step.
    rewrite parse_exp_none by assumption. bind_step. reflexivity.
  - simpl negative. simpl exponent.
    pose proof (parse_decimal_text neg (d :: ds') e rest Hds
                  ltac:(discriminate) Hhead Hlast Hend) as Hparse.
    destruct neg.
    + exact Hparse.
    + destruct (decimal_text_head (d :: ds') e Hds ltac:(discriminate))
        as (c & t & Htext & Hc).
      rewrite app_nil_l. rewrite Htext in *. simpl app in *.
      rewrite parse_number_unsigned; [exact Hparse|].
      intros ->. discriminate Hc.
Qed.

Lemma Number_toString_head x :
  wf_number x ->
  exists c t, Number_toString x = c :: t /\ (c = 45 \/ is_digit c = true).
Proof.
  destruct x as [neg ds e]. intros [(Hds & _ & _) _]. simpl in *.
  unfold Number_toString. simpl.
  destruct ds as [|d ds']; [eexists _, _; split; [reflexivity|now right]|].
  destruct neg; [eexists _, _; split; [reflexivity|now left]|].
  destruct (decimal_text_head (d :: ds') e Hds ltac:(discriminate))
    as (c & t & Htext & Hc).
  exists c, t. rewrite Htext. auto.
Qed.

(* --------------------------------------------------------------------- *)
(** ** Strings: the quoted text read back *)
(* --------------------------------------------------------------------- *)

Lemma hex_value_char h : h < 16 -> hex_value (hex_char h) = Some h.
Proof.
  intros Hh. unfold hex_char, hex_value, is_digit.
  destruct (N.ltb_spec h 10).
  - replace (48 <=? 48 + h) with true by (symmetry; apply N.leb_le; lia).
    replace (48 + h <=? 57) with true by (symmetry; apply N.leb_le; lia).
    simpl. f_equal. lia.
  - replace (87 + h <=? 57) with false by (symmetry; apply N.leb_gt; lia).
    rewrite andb_false_r.
    replace (97 <=? 87 + h) with true by (symmetry; apply N.leb_le; lia).
    replace (87 + h <=? 102) with true by (symmetry; apply N.leb_le; lia).
    simpl. f_equal. lia.
Qed.

Lemma hex_digits_value c :
  c < 65536 ->
  4096 * (c / 4096 mod 16) + 256 * (c / 256 mod 16) + 16 * (c / 16 mod 16)
    + c mod 16 = c.
Proof.
  intros Hc. zify. Z.to_euclidean_division_equations. lia.
Qed.

Lemma parse_chars_plain c t :
  c <> 34 -> c <> 92 -> 32 <= c ->
  parse_chars (c :: t) = consing c (parse_chars t).
Proof.
  intros H34 H92 H32. simpl.
  destruct (N.eqb_spec c 34); [contradiction|].
  destruct (N.eqb_spec c 92); [contradiction|].
  destruct (N.ltb_spec c 32); [lia|]. reflexivity.
Qed.

Lemma parse_chars_unicode_escape c t :
  c < 65536 ->
  parse_chars (unicode_escape c ++ t) = consing c (parse_chars t).
Proof.
  intros Hc.
  change (parse_chars (unicode_escape c ++ t))
    with (match hex_value (hex_char (c / 4096 mod 16)),
                hex_value (hex_char (c / 256 mod 16)),
                hex_value (hex_char (c / 16 mod 16)),
                hex_value (hex_char (c mod 16)) with
          | Some a, Some b, Some c', Some d =>
            match parse_chars t with
            | Some (str, rest) =>
              Some (4096 * a + 256 * b + 16 * c' + d :: str, rest)
            | None => None
            end
          | _, _, _, _ => None
          end).
  rewrite !hex_value_char by (apply N.mod_lt; discriminate).
  now rewrite hex_digits_value.
Qed.

Lemma parse_quote_unit p c next_low t :
  parse_chars (quote_unit p c next_low ++ t) = consing c (parse_chars t).
Proof.
  unfold quote_unit.
  repeat match goal with
         | |- context [N.eqb c ?k] => destruct (N.eqb_spec c k); [subst; reflexivity|]
         end.
  destruct (N.ltb_spec c 32); [apply parse_chars_unicode_escape; lia|].
  unfold is_high_surrogate, is_low_surrogate.
  destruct (N.leb_spec 55296 c); destruct (N.leb_spec c 56319); simpl;
    try (destruct next_low;
         [apply parse_chars_plain; lia|apply parse_chars_unicode_escape; lia]);
    destruct (N.leb_spec 56320 c); destruct (N.leb_spec c 57343); simpl;
    try (destruct p;
         [apply parse_chars_plain; lia|apply parse_chars_unicode_escape; lia]);
    apply parse_chars_plain; lia.
Qed.

(** A string is read back from its quoted text. *)
Lemma parse_chars_quote s p rest :
  parse_chars (quote_units p s ++ 34 :: rest) = Some (s, rest).
Proof.
  revert p. induction s as [|c s IH]; intros p; [reflexivity|].
  simpl quote_units. rewrite <- app_assoc, parse_quote_unit, IH. reflexivity.
Qed.

(* --------------------------------------------------------------------- *)
(** ** Values: [JSON.parse] after [JSON.stringify] *)
(* --------------------------------------------------------------------- *)

(** Induction on a value, with the hypothesis for every element of an
    array and every property of an object. *)
Lemma Json_ind_nested (P : Json -> Prop)
  (Hnull : P JNull) (Hbool : forall b, P (JBool b))
  (Hnumber : forall n, P (JNumber n)) (Hstring : forall s, P (JString s))
  (Harray : forall items, Forall P items -> P (JArray items))
  (Hobject : forall fields,
      Forall (fun kv => P (snd kv)) fields -> P (JObject fields)) :
  forall v, P v.
Proof.
  exact
    (fix go (v : Json) : P v :=
       match v with
       | JNull => Hnull
       | JBool b => Hbool b
       | JNumber n => Hnumber n
       | JString s => Hstring s
       | JArray items =>
         Harray items
           ((fix all (l : list Json) : Forall P l :=
               match l with
               | [] => @List.Forall_nil _ P
               | x :: l' => @List.Forall_cons _ P x l' (go x) (all l')
               end) items)
       | JObject fields =>
         Hobject fields
           ((fix all (l : list (js_string * Json))
               : Forall (fun kv => P (snd kv)) l :=
               match l with
               | [] => @List.Forall_nil _ _
               | kv :: l' =>
                 @List.Forall_cons _ (fun kv => P (snd kv)) kv l'
                   (go (snd kv)) (all l')
               end) fields)
       end).
Qed.

Lemma deep_equal_refl v : deep_equal v v.
Proof.
  induction v as [| | | |items IH|fields IH] using Json_ind_nested;
    try constructor.
  - induction IH; constructor; assumption.
  - apply de_object with (zs := fields); [reflexivity|].
    induction IH; constructor; auto.
Qed.

Lemma skip_ws_head c t : is_ws c = false -> skip_ws (c :: t) = c :: t.
Proof. intros Hc. simpl. now rewrite Hc. Qed.

Lemma parse_value_number f c t :
  c = 45 \/ is_digit c = true ->
  parse_value (S f) (c :: t)
  = '(n, r) ← parse_number (c :: t); Some (JNumber n, r).
Proof.
  intros [->|Hc]; [reflexivity|].
  unfold is_digit in Hc. apply andb_prop in Hc as [Hlo Hhi].
  apply N.leb_le in Hlo. apply N.leb_le in Hhi.
  assert (Hws : is_ws c = false).
  { unfold is_ws.
    repeat match goal with
           | |- context [N.eqb c ?k] => destruct (N.eqb_spec c k); [lia|]
           end. reflexivity. }
  cbn [parse_value]. rewrite skip_ws_head by assumption.
  unfold parse_scalar.
  repeat match goal with
         | |- context [N.eqb c ?k] => destruct (N.eqb_spec c k); [lia|]
         end.
  reflexivity.
Qed.

Lemma not_closing_bracket {A} c t (a : js_string -> A) (b : A) :
  c <> 93 ->
  match c :: t with 93 :: r => a r | _ => b end = b.
Proof.
  intros Hc. destruct c as [|p]; [reflexivity|].
  do 7 (destruct p as [p|p|]; try reflexivity). contradiction.
Qed.

(** The text of a value starts with a character that is neither white
    space nor a closing bracket. *)
Lemma stringify_head v :
  wf_json v ->
  exists c t, JSON_stringify v = c :: t /\ is_ws c = false /\ c <> 93.
Proof.
  intros Hwf. destruct Hwf as [|b|n Hn| | |];
    try (eexists _, _; split; [reflexivity|split; [reflexivity|discriminate]]).
  - destruct b;
      eexists _, _; (split; [reflexivity|split; [reflexivity|discriminate]]).
  - destruct (Number_toString_head n Hn) as (c & t & Htext & Hc).
    exists c, t. split; [exact Htext|].
    destruct Hc as [->|Hc]; [split; [reflexivity|discriminate]|].
    unfold is_digit in Hc. apply andb_prop in Hc as [Hlo Hhi].
    apply N.leb_le in Hlo. apply N.leb_le in Hhi. split; [|lia].
    unfold is_ws.
    repeat match goal with
           | |- context [N.eqb c ?k] => destruct (N.eqb_spec c k); [lia|]
           end. reflexivity.
Qed.

Lemma define_property_fresh fields k v :
  k ∉ List.map fst fields ->
  define_property fields k v = fields ++ [(k, v)].
Proof.
  induction fields as [|[k' v'] fields IH]; intros Hfresh; [reflexivity|].
  simpl in *. apply not_elem_of_cons in Hfresh as [Hne Hfresh].
  destruct (decide (k' = k)); [congruence|]. now rewrite IH.
Qed.

Lemma object_of_members_distinct acc members :
  NoDup (List.map fst (acc ++ members)) ->
  fold_left (fun acc kv => define_property acc (fst kv) (snd kv)) members acc
  = acc ++ members.
Proof.
  revert acc. induction members as [|[k v] members IH]; intros acc Hnodup.
  - now rewrite app_nil_r.
  - simpl. rewrite define_property_fresh.
    + rewrite IH; rewrite <- app_assoc; [reflexivity|exact Hnodup].
    + rewrite map_app in Hnodup. simpl in Hnodup.
      apply NoDup_app in Hnodup as (_ & Hdisjoint & _).
      intros Hin. apply (Hdisjoint k Hin). left.
Qed.

(** An object whose keys are distinct is built as it was written. *)
Lemma object_of_members_id fields :
  NoDup (List.map fst fields) -> object_of_members fields = fields.
Proof. intros Hnodup. now apply (object_of_members_distinct [] fields). Qed.

Lemma member_text k v tail :
  (JSON_quote k ++ lit ":" ++ JSON_stringify v) ++ tail
  = 34 :: quote_units false k ++ 34 :: 58 :: JSON_stringify v ++ tail.
Proof. unfold JSON_quote. rewrite <- !app_assoc. reflexivity. Qed.

Lemma parse_members_quote f t :
  parse_members (S f) (34 :: t)
  = '(k, r1) ← parse_chars t;
    match skip_ws r1 with
    | 58 :: r2 =>
      '(v, r3) ← parse_value f r2;
      match skip_ws r3 with
      | 44 :: r4 => '(ms, r5) ← parse_members f r4; Some ((k, v) :: ms, r5)
      | 125 :: r4 => Some ([(k, v)], r4)
      | _ => None
      end
    | _ => None
    end.
Proof. reflexivity. Qed.

Lemma not_closing_brace {A} c t (a : js_string -> A) (b : A) :
  c <> 125 ->
  match c :: t with 125 :: r => a r | _ => b end = b.
Proof.
  intros Hc. destruct c as [|p]; [reflexivity|].
  do 7 (destruct p as [p|p|]; try reflexivity). contradiction.
Qed.

Lemma array_dispatch {A} text (a : js_string -> A) (b : A) :
  (exists c t, text = c :: t /\ is_ws c = false /\ c <> 93) ->
  match skip_ws text with 93 :: r => a r | _ => b end = b.
Proof.
  intros (c & t & -> & Hws & Hc). rewrite skip_ws_head by assumption.
  now apply not_closing_bracket.
Qed.

Lemma object_dispatch {A} text (a : js_string -> A) (b : A) :
  (exists c t, text = c :: t /\ is_ws c = false /\ c <> 125) ->
  match skip_ws text with 125 :: r => a r | _ => b end = b.
Proof.
  intros (c & t & -> & Hws & Hc). rewrite skip_ws_head by assumption.
  now apply not_closing_brace.
Qed.

Lemma parse_value_array f t :
  parse_value (S f) (91 :: t)
  = match skip_ws t with
    | 93 :: r => Some (JArray [], r)
    | _ => '(items, r) ← parse_elements f t; Some (JArray items, r)
    end.
Proof. reflexivity. Qed.

Lemma parse_value_object f t :
  parse_value (S f) (123 :: t)
  = match skip_ws t with
    | 125 :: r => Some (JObject [], r)
    | _ =>
      '(members, r) ← parse_members f t;
      Some (JObject (object_of_members members), r)
    end.
Proof. reflexivity. Qed.

Lemma parse_value_string f t :
  parse_value (S f) (34 :: t)
  = '(str, r) ← parse_chars t; Some (JString str, r).
Proof. reflexivity. Qed.

Lemma parse_elements_text items :
  Forall reads_back items -> Forall wf_json items -> items <> [] ->
  forall fuel rest,
    (list_sum (List.map (fun x => S (weight x)) items) <= fuel)%nat ->
    parse_elements fuel (join_comma (List.map JSON_stringify items) ++ 93 :: rest)
    = Some (items, rest).
Proof.
  induction 1 as [|v vs Hv _ IH]; intros Hwf Hne fuel rest Hfuel;
    [contradiction|].
  inversion Hwf as [|? ? Hwfv Hwfvs]; subst.
  simpl in Hfuel. destruct fuel as [|fuel]; [lia|].
  cbn [parse_elements]. destruct vs as [|v' vs'].
  - change (join_comma (List.map JSON_stringify [v])) with (JSON_stringify v).
    rewrite (Hv Hwfv fuel (93 :: rest)) by (reflexivity || lia).
    reflexivity.
  - change (join_comma (List.map JSON_stringify (v :: v' :: vs')))
      with (JSON_stringify v ++ lit ","
              ++ join_comma (List.map JSON_stringify (v' :: vs'))).
    rewrite <- !app_assoc.
    rewrite (Hv Hwfv fuel) by (reflexivity || lia).
    bind_step. change (skip_ws (lit "," ++ ?x)) with (44 :: x). cbv iota.
    rewrite IH by (assumption || discriminate || lia).
    reflexivity.
Qed.

Lemma parse_members_text fields :
  Forall (fun kv => reads_back (snd kv)) fields ->
  Forall (fun kv => wf_json (snd kv)) fields -> fields <> [] ->
  forall fuel rest,
    (list_sum (List.map (fun kv => S (weight (snd kv))) fields) <= fuel)%nat ->
    parse_members fuel
      (join_comma
         (List.map (fun kv => JSON_quote (fst kv) ++ lit ":" ++ JSON_stringify (snd kv))
            fields) ++ 125 :: rest)
    = Some (fields, rest).
Proof.
  induction 1 as [|[k v] kvs Hv _ IH]; intros Hwf Hne fuel rest Hfuel;
    [contradiction|].
  inversion Hwf as [|? ? Hwfv Hwfvs]; subst.
  simpl in Hfuel, Hv, Hwfv. destruct fuel as [|fuel]; [lia|].
  destruct kvs as [|kv' kvs'].
  - change (join_comma (List.map ?f [(k, v)])) with (f (k, v)).
    cbn [fst snd].
    rewrite member_text, parse_members_quote, parse_chars_quote. bind_step.
    change (skip_ws (58 :: ?x)) with (58 :: x). cbv iota.
    rewrite (Hv Hwfv fuel (125 :: rest)) by (reflexivity || lia).
    reflexivity.
  - change (join_comma (List.map ?f ((k, v) :: kv' :: kvs')))
      with (f (k, v) ++ lit "," ++ join_comma (List.map f (kv' :: kvs'))).
    cbn [fst snd]. rewrite <- (app_assoc _ _ (125 :: rest)).
    rewrite member_text, parse_members_quote, parse_chars_quote. bind_step.
    change (skip_ws (58 :: ?x)) with (58 :: x). cbv iota.
    rewrite <- app_assoc.
    rewrite (Hv Hwfv fuel) by (reflexivity || lia).
    bind_step. change (skip_ws (lit "," ++ ?x)) with (44 :: x). cbv iota.
    rewrite IH by (assumption || discriminate || lia).
    reflexivity.
Qed.

(** Every value is read back from its text, whatever follows it. *)
Lemma stringify_reads_back v : reads_back v.
Proof.
  induction v as [|b|n|s|items IH|fields IH] using Json_ind_nested;
    intros Hwf fuel rest Hfuel Hend;
    (destruct fuel as [|fuel]; [simpl in Hfuel; lia|]).
  - reflexivity.
  - now destruct b.
  - inversion Hwf as [| |? Hn| | |]; subst.
    destruct (Number_toString_head n Hn) as (c & t & Htext & Hc).
    pose proof (parse_number_text n rest Hn Hend) as Hparse.
    simpl JSON_stringify. rewrite Htext in *. simpl app in *.
    rewrite parse_value_number by assumption. now rewrite Hparse.
  - change (JSON_stringify (JString s) ++ rest)
      with (34 :: (quote_units false s ++ [34]) ++ rest).
    rewrite <- app_assoc, parse_value_string.
    change ([34] ++ rest) with (34 :: rest). now rewrite parse_chars_quote.
  - inversion Hwf as [| | | |? Hitems|]; subst.
    destruct items as [|v vs]; [reflexivity|].
    change (JSON_stringify (JArray (v :: vs)) ++ rest)
      with (91 :: (join_comma (List.map JSON_stringify (v :: vs)) ++ [93]) ++ rest).
    rewrite <- app_assoc, parse_value_array.
    change ([93] ++ rest) with (93 :: rest).
    rewrite array_dispatch.
    + rewrite (parse_elements_text (v :: vs)); try assumption;
        [reflexivity|discriminate|].
      simpl in Hfuel. simpl. lia.
    + inversion Hitems as [|? ? Hv _]; subst.
      destruct (stringify_head v Hv) as (c & t & Htext & Hws & Hc).
      exists c. simpl List.map. rewrite Htext.
      destruct (List.map JSON_stringify vs); eexists; (split; [reflexivity|auto]).
  - inversion Hwf as [| | | | |? Hkeys Hfields]; subst.
    destruct fields as [|[k v] kvs]; [reflexivity|].
    change (JSON_stringify (JObject ((k, v) :: kvs)) ++ rest)
      with (123 ::
              (join_comma
                 (List.map
                    (fun kv => JSON_quote (fst kv) ++ lit ":" ++ JSON_stringify (snd kv))
                    ((k, v) :: kvs)) ++ [125]) ++ rest).
    rewrite <- app_assoc, parse_value_object.
    change ([125] ++ rest) with (125 :: rest).
    rewrite object_dispatch.
    + rewrite (parse_members_text ((k, v) :: kvs)); try assumption;
        [|discriminate|simpl in Hfuel; simpl; lia].
      bind_step. now rewrite object_of_members_id.
    + exists 34. simpl List.map.
      destruct (List.map _ kvs); eexists; (split; [reflexivity|]);
        (split; [reflexivity|discriminate]).
Qed.


Lemma join_comma_length parts :
  (list_sum (List.map (fun p => S (length p)) parts)
   <= S (length (join_comma parts)))%nat.
Proof.
  induction parts as [|p [|p' parts] IH]; simpl in *; [lia|lia|].
  rewrite !length_app in *. simpl in *. lia.
Qed.

Lemma list_sum_le {A} (f g : A -> nat) (l : list A) :
  Forall (fun x => (f x <= g x)%nat) l ->
  (list_sum (List.map f l) <= list_sum (List.map g l))%nat.
Proof. induction 1; simpl; lia. Qed.

(** The length of the text is fuel enough. *)
Lemma weight_le_length v :
  wf_json v -> (weight v <= length (JSON_stringify v))%nat.
Proof.
  induction v as [|b|n|s|items IH|fields IH] using Json_ind_nested;
    intros Hwf.
  - simpl. lia.
  - destruct b; simpl; lia.
  - inversion Hwf as [| |? Hn| | |]; subst.
    destruct (Number_toString_head n Hn) as (c & t & Htext & _).
    simpl. rewrite Htext. simpl. lia.
  - simpl. lia.
  - inversion Hwf as [| | | |? Hitems|]; subst.
    change (JSON_stringify (JArray items))
      with (91 :: join_comma (List.map JSON_stringify items) ++ [93]).
    simpl. rewrite length_app. simpl.
    pose proof (join_comma_length (List.map JSON_stringify items)) as Hjoin.
    rewrite map_map in Hjoin.
    assert (list_sum (List.map (fun x => S (weight x)) items)
            <= list_sum (List.map (fun x => S (length (JSON_stringify x))) items))%nat;
      [|lia].
    apply list_sum_le.
    apply Forall_impl with (P := fun x => wf_json x /\ (wf_json x -> (weight x <= length (JSON_stringify x))%nat)).
    + apply Forall_and. split; assumption.
    + intros x [Hx Hlen]. specialize (Hlen Hx). lia.
  - inversion Hwf as [| | | | |? Hkeys Hfields]; subst.
    change (JSON_stringify (JObject fields))
      with (123 ::
              join_comma
                (List.map
                   (fun kv => JSON_quote (fst kv) ++ lit ":" ++ JSON_stringify (snd kv))
                   fields) ++ [125]).
    simpl length. rewrite length_app. simpl length.
    match goal with
    | |- context [join_comma ?parts] =>
      pose proof (join_comma_length parts) as Hjoin
    end.
    rewrite map_map in Hjoin.
    match type of Hjoin with
    | (list_sum (List.map ?g fields) <= _)%nat =>
      assert (list_sum (List.map (fun kv => S (weight (snd kv))) fields)
              <= list_sum (List.map g fields))%nat; [|simpl weight; lia]
    end.
    apply list_sum_le.
    apply Forall_impl with
      (P := fun kv => wf_json (snd kv)
                      /\ (wf_json (snd kv)
                          -> (weight (snd kv) <= length (JSON_stringify (snd kv)))%nat)).
    + apply Forall_and. split; assumption.
    + intros kv [Hx Hlen]. specialize (Hlen Hx).
      simpl length. rewrite !length_app. simpl length. lia.
Qed.

(** [JSON.parse(JSON.stringify(v))] is [v]. *)
Lemma JSON_parse_stringify v :
  wf_json v -> JSON_parse (JSON_stringify v) = Some v.
Proof.
  intros Hwf. unfold JSON_parse.
  pose proof (weight_le_length v Hwf) as Hlen.
  pose proof (stringify_reads_back v Hwf
                (2 * length (JSON_stringify v) + 2)%nat [] ltac:(lia) eq_refl)
    as Hparse.
  rewrite app_nil_r in Hparse. now rewrite Hparse.
Qed.

(* --------------------------------------------------------------------- *)
(** ** The fuel of [JSON.parse] is enough for every text *)
(* --------------------------------------------------------------------- *)

Lemma skip_ws_length s : (length (skip_ws s) <= length s)%nat.
Proof.
  induction s as [|c s IH]; simpl; [lia|]. destruct (is_ws c); simpl; lia.
Qed.

Lemma expect_length word s r :
  expect word s = Some r -> (length r <= length s)%nat.
Proof.
  revert s. induction word as [|w word IH]; intros s; simpl.
  - intros [= ->]. lia.
  - destruct s as [|c s]; [discriminate|]. destruct (w =? c); [|discriminate].
    intros Hr. apply IH in Hr. simpl. lia.
Qed.

Lemma parse_chars_length s :
  forall str r, parse_chars s = Some (str, r) -> (length r < length s)%nat.
Proof.
  induction s as [s IH] using (induction_ltof1 _ (@length N)).
  unfold ltof in IH. intros str r. destruct s as [|c s]; [discriminate|].
  simpl. destruct (c =? 34); [intros [= _ ->]; lia|].
  destruct (c =? 92).
  - destruct s as [|e s1]; [discriminate|]. destruct (e =? 117).
    + destruct s1 as [|h1 [|h2 [|h3 [|h4 s2]]]]; try discriminate.
      destruct (hex_value h1), (hex_value h2), (hex_value h3), (hex_value h4);
        try discriminate.
      destruct (parse_chars s2) as [[str' r']|] eqn:Hrest; [|discriminate].
      intros [= _ ->]. apply IH in Hrest; simpl in *; lia.
    + destruct (simple_escape e); [|discriminate].
      destruct (parse_chars s1) as [[str' r']|] eqn:Hrest; [|discriminate].
      intros [= _ ->]. apply IH in Hrest; simpl in *; lia.
  - destruct (c <? 32); [discriminate|].
    destruct (parse_chars s) as [[str' r']|] eqn:Hrest; [|discriminate].
    intros [= _ ->]. apply IH in Hrest; simpl in *; lia.
Qed.

Lemma take_digits_length s : (length (snd (take_digits s)) <= length s)%nat.
Proof.
  induction s as [|c s IH]; simpl; [lia|].
  destruct (is_digit c); simpl; [|lia].
  destruct (take_digits s). simpl in *. lia.
Qed.

Lemma parse_int_length s ds r :
  parse_int s = Some (ds, r) -> (length r < length s)%nat.
Proof.
  unfold parse_int. destruct s as [|c s]; [discriminate|].
  destruct (c =? 48); [intros [= _ ->]; simpl; lia|].
  destruct (is_digit c) eqn:Hc; [|discriminate].
  simpl. rewrite Hc. pose proof (take_digits_length s) as Hlen.
  destruct (take_digits s). intros [= _ ->]. simpl in *. lia.
Qed.

Lemma parse_frac_length s fs r :
  parse_frac s = Some (fs, r) -> (length r <= length s)%nat.
Proof.
  destruct s as [|c s]; [intros [= _ <-]; lia|].
  destruct (N.eq_dec c 46) as [->|Hc].
  - unfold parse_frac. pose proof (take_digits_length s) as Hlen.
    destruct (take_digits s) as [[|d ds] r']; [discriminate|].
    intros [= _ ->]. simpl in *. lia.
  - rewrite (parse_frac_none (c :: s) Hc : _ = Some ([], c :: s)).
    intros [= _ <-]. lia.
Qed.

Lemma parse_exp_length s e r :
  parse_exp s = Some (e, r) -> (length r <= length s)%nat.
Proof.
  unfold parse_exp. destruct s as [|c s]; [intros [= _ <-]; lia|].
  destruct ((c =? 101) || (c =? 69)); [|intros [= _ <-]; lia].
  assert (Hsign : exists minus rest1,
             match s with
             | 45 :: r0 => (true, r0)
             | 43 :: r0 => (false, r0)
             | _ => (false, s)
             end = (minus, rest1) /\ (length rest1 <= length s)%nat).
  { destruct s as [|c' s']; [now eexists _, _|].
    destruct c' as [|p]; [now eexists _, _|].
    do 6 (destruct p as [p|p|]; try (now eexists _, _));
      eexists _, _; (split; [reflexivity|simpl; lia]). }
  destruct Hsign as (minus & rest1 & -> & Hlen).
  pose proof (take_digits_length rest1) as Hlen'.
  destruct (take_digits rest1) as [[|d ds] r']; [discriminate|].
  intros [= _ ->]. simpl in *. lia.
Qed.

Lemma parse_unsigned_length neg s n r :
  parse_unsigned neg s = Some (n, r) -> (length r < length s)%nat.
Proof.
  unfold parse_unsigned.
  destruct (parse_int s) as [[ids s1]|] eqn:Hint; [|discriminate].
  bind_step. destruct (parse_frac s1) as [[fs s2]|] eqn:Hfrac; [|discriminate].
  bind_step. destruct (parse_exp s2) as [[e s3]|] eqn:Hexp; [|discriminate].
  bind_step. intros [= _ ->].
  apply parse_int_length in Hint. apply parse_frac_length in Hfrac.
  apply parse_exp_length in Hexp. lia.
Qed.

Lemma parse_number_length s n r :
  parse_number s = Some (n, r) -> (length r < length s)%nat.
Proof.
  destruct s as [|c s]; [discriminate|].
  destruct (N.eq_dec c 45) as [->|Hc].
  - intros Hparse. apply parse_unsigned_length in Hparse. simpl. lia.
  - rewrite parse_number_unsigned by assumption. apply parse_unsigned_length.
Qed.

Lemma parse_scalar_length s v r :
  parse_scalar s = Some (v, r) -> (length r < length s)%nat.
Proof.
  unfold parse_scalar. destruct s as [|c s]; [discriminate|].
  repeat match goal with
         | |- context [if ?b then _ else _] => destruct b
         end.
  - destruct (expect _ s) as [r'|] eqn:Hr; [|discriminate].
    intros [= _ ->]. apply expect_length in Hr. simpl. lia.
  - destruct (expect _ s) as [r'|] eqn:Hr; [|discriminate].
    intros [= _ ->]. apply expect_length in Hr. simpl. lia.
  - destruct (expect _ s) as [r'|] eqn:Hr; [|discriminate].
    intros [= _ ->]. apply expect_length in Hr. simpl. lia.
  - destruct (parse_chars s) as [[str r']|] eqn:Hr; [|discriminate].
    intros [= _ ->]. apply parse_chars_length in Hr. simpl. lia.
  - destruct (parse_number (c :: s)) as [[n r']|] eqn:Hr; [|discriminate].
    intros [= _ ->]. now apply parse_number_length in Hr.
Qed.

Lemma closing_bracket_cases (l : js_string) :
  (exists r, l = 93 :: r)
  \/ (forall A (a : js_string -> A) (b : A),
        match l with 93 :: r => a r | _ => b end = b).
Proof.
  destruct l as [|c t]; [now right|].
  destruct (N.eq_dec c 93) as [->|Hc]; [left; eauto|].
  right. intros A a b. now apply not_closing_bracket.
Qed.

Lemma closing_brace_cases (l : js_string) :
  (exists r, l = 125 :: r)
  \/ (forall A (a : js_string -> A) (b : A),
        match l with 125 :: r => a r | _ => b end = b).
Proof.
  destruct l as [|c t]; [now right|].
  destruct (N.eq_dec c 125) as [->|Hc]; [left; eauto|].
  right. intros A a b. now apply not_closing_brace.
Qed.

Lemma element_separator_inv {A} (l : js_string)
  (a b : js_string -> option A) (x : A) :
  match l with 44 :: r => a r | 93 :: r => b r | _ => None end = Some x ->
  (exists r, l = 44 :: r /\ a r = Some x)
  \/ (exists r, l = 93 :: r /\ b r = Some x).
Proof.
  destruct l as [|c t]; [discriminate|]. destruct c as [|p]; [discriminate|].
  repeat (destruct p as [p|p|]; try discriminate); eauto.
Qed.

Lemma member_separator_inv {A} (l : js_string)
  (a b : js_string -> option A) (x : A) :
  match l with 44 :: r => a r | 125 :: r => b r | _ => None end = Some x ->
  (exists r, l = 44 :: r /\ a r = Some x)
  \/ (exists r, l = 125 :: r /\ b r = Some x).
Proof.
  destruct l as [|c t]; [discriminate|]. destruct c as [|p]; [discriminate|].
  repeat (destruct p as [p|p|]; try discriminate); eauto.
Qed.

Lemma opening_quote_inv {A} (l : js_string) (a : js_string -> option A) (x : A) :
  match l with 34 :: r => a r | _ => None end = Some x ->
  exists r, l = 34 :: r /\ a r = Some x.
Proof.
  destruct l as [|c t]; [discriminate|]. destruct c as [|p]; [discriminate|].
  repeat (destruct p as [p|p|]; try discriminate); eauto.
Qed.

Lemma colon_inv {A} (l : js_string) (a : js_string -> option A) (x : A) :
  match l with 58 :: r => a r | _ => None end = Some x ->
  exists r, l = 58 :: r /\ a r = Some x.
Proof.
  destruct l as [|c t]; [discriminate|]. destruct c as [|p]; [discriminate|].
  repeat (destruct p as [p|p|]; try discriminate); eauto.
Qed.

Lemma parse_value_eq f s :
  parse_value (S f) s
  = match skip_ws s with
    | [] => None
    | c :: rest =>
      if c =? 91 then
        match skip_ws rest with
        | 93 :: r => Some (JArray [], r)
        | _ => '(items, r) ← parse_elements f rest; Some (JArray items, r)
        end
      else if c =? 123 then
        match skip_ws rest with
        | 125 :: r => Some (JObject [], r)
        | _ =>
          '(members, r) ← parse_members f rest;
          Some (JObject (object_of_members members), r)
        end
      else parse_scalar (c :: rest)
    end.
Proof. reflexivity. Qed.

Lemma parse_elements_eq f s :
  parse_elements (S f) s
  = '(v, r) ← parse_value f s;
    match skip_ws r with
    | 44 :: r1 => '(vs, r2) ← parse_elements f r1; Some (v :: vs, r2)
    | 93 :: r1 => Some ([v], r1)
    | _ => None
    end.
Proof. reflexivity. Qed.

Lemma parse_members_eq f s :
  parse_members (S f) s
  = match skip_ws s with
    | 34 :: r0 =>
      '(k, r1) ← parse_chars r0;
      match skip_ws r1 with
      | 58 :: r2 =>
        '(v, r3) ← parse_value f r2;
        match skip_ws r3 with
        | 44 :: r4 => '(ms, r5) ← parse_members f r4; Some ((k, v) :: ms, r5)
        | 125 :: r4 => Some ([(k, v)], r4)
        | _ => None
        end
      | _ => None
      end
    | _ => None
    end.
Proof. reflexivity. Qed.

Lemma parse_value_fuel_step f :
  fuel_bound parse_elements f -> fuel_bound parse_members f ->
  fuel_bound parse_value (S f).
Proof.
  intros IHe IHm s v r. rewrite parse_value_eq.
  pose proof (skip_ws_length s) as Hskip.
  destruct (skip_ws s) as [|c rest] eqn:Hs; [discriminate|]. simpl in Hskip.
  pose proof (skip_ws_length rest) as Hskip'.
  destruct (c =? 91) eqn:Hc91; [|destruct (c =? 123) eqn:Hc123].
  - destruct (closing_bracket_cases (skip_ws rest)) as [[r0 Hr0]|Hother].
    + rewrite Hr0 in *. intros [= <- <-]. simpl in Hskip'. split; [lia|].
      intros [|f'] Hf'; [lia|].
      now rewrite parse_value_eq, Hs, Hc91, Hr0.
    + rewrite Hother.
      destruct (parse_elements f rest) as [[items r']|] eqn:Hitems;
        [|discriminate].
      bind_step. intros [= <- <-].
      destruct (IHe _ _ _ Hitems) as [Hlen Hfuel]. split; [lia|].
      intros [|f'] Hf'; [lia|].
      rewrite parse_value_eq, Hs, Hc91, Hother, Hfuel by lia. reflexivity.
  - destruct (closing_brace_cases (skip_ws rest)) as [[r0 Hr0]|Hother].
    + rewrite Hr0 in *. intros [= <- <-]. simpl in Hskip'. split; [lia|].
      intros [|f'] Hf'; [lia|].
      now rewrite parse_value_eq, Hs, Hc91, Hc123, Hr0.
    + rewrite Hother.
      destruct (parse_members f rest) as [[members r']|] eqn:Hmembers;
        [|discriminate].
      bind_step. intros [= <- <-].
      destruct (IHm _ _ _ Hmembers) as [Hlen Hfuel]. split; [lia|].
      intros [|f'] Hf'; [lia|].
      rewrite parse_value_eq, Hs, Hc91, Hc123, Hother, Hfuel by lia. reflexivity.
  - intros Hscalar. pose proof (parse_scalar_length _ _ _ Hscalar) as Hlen.
    simpl in Hlen. split; [lia|].
    intros [|f'] Hf'; [lia|].
    now rewrite parse_value_eq, Hs, Hc91, Hc123.
Qed.

Lemma parse_elements_fuel_step f :
  fuel_bound parse_value f -> fuel_bound parse_elements f ->
  fuel_bound parse_elements (S f).
Proof.
  intros IHv IHe s vs r. rewrite parse_elements_eq.
  destruct (parse_value f s) as [[v r1]|] eqn:Hv; [|discriminate].
  bind_step. intros Hsep.
  destruct (IHv _ _ _ Hv) as [Hlen1 Hfuel1].
  pose proof (skip_ws_length r1) as Hskip.
  apply element_separator_inv in Hsep as [(r2 & Hr1 & Hrest)|(r2 & Hr1 & Hrest)];
    rewrite Hr1 in Hskip; simpl in Hskip.
  - destruct (parse_elements f r2) as [[vs' r3]|] eqn:Hvs; [|discriminate].
    revert Hrest. bind_step. intros [= <- <-].
    destruct (IHe _ _ _ Hvs) as [Hlen2 Hfuel2]. split; [lia|].
    intros [|f'] Hf'; [lia|].
    rewrite parse_elements_eq, Hfuel1 by lia. bind_step.
    rewrite Hr1. cbv iota. rewrite Hfuel2 by lia. reflexivity.
  - injection Hrest as <- <-. split; [lia|].
    intros [|f'] Hf'; [lia|].
    rewrite parse_elements_eq, Hfuel1 by lia. bind_step.
    rewrite Hr1. reflexivity.
Qed.

Lemma parse_members_fuel_step f :
  fuel_bound parse_value f -> fuel_bound parse_members f ->
  fuel_bound parse_members (S f).
Proof.
  intros IHv IHm s ms r. rewrite parse_members_eq. intros Hparse.
  pose proof (skip_ws_length s) as Hskip0.
  apply opening_quote_inv in Hparse as (r0 & Hs & Hparse).
  rewrite Hs in Hskip0. simpl in Hskip0.
  destruct (parse_chars r0) as [[k r1]|] eqn:Hk; [|discriminate].
  revert Hparse. bind_step. intros Hparse.
  pose proof (parse_chars_length _ _ _ Hk) as Hlenk.
  pose proof (skip_ws_length r1) as Hskip1.
  apply colon_inv in Hparse as (r2 & Hr1 & Hparse).
  rewrite Hr1 in Hskip1. simpl in Hskip1.
  destruct (parse_value f r2) as [[v r3]|] eqn:Hv; [|discriminate].
  revert Hparse. bind_step. intros Hsep.
  destruct (IHv _ _ _ Hv) as [Hlen3 Hfuel3].
  pose proof (skip_ws_length r3) as Hskip3.
  apply member_separator_inv in Hsep as [(r4 & Hr3 & Hrest)|(r4 & Hr3 & Hrest)];
    rewrite Hr3 in Hskip3; simpl in Hskip3.
  - destruct (parse_members f r4) as [[ms' r5]|] eqn:Hms; [|discriminate].
    revert Hrest. bind_step. intros [= <- <-].
    destruct (IHm _ _ _ Hms) as [Hlen5 Hfuel5]. split; [lia|].
    intros [|f'] Hf'; [lia|].
    rewrite parse_members_eq, Hs. cbv iota. rewrite Hk. bind_step.
    rewrite Hr1. cbv iota. rewrite Hfuel3 by lia. bind_step.
    rewrite Hr3. cbv iota. rewrite Hfuel5 by lia. reflexivity.
  - injection Hrest as <- <-. split; [lia|].
    intros [|f'] Hf'; [lia|].
    rewrite parse_members_eq, Hs. cbv iota. rewrite Hk. bind_step.
    rewrite Hr1. cbv iota. rewrite Hfuel3 by lia. bind_step.
    rewrite Hr3. reflexivity.
Qed.

Lemma parse_fuel_bound f :
  fuel_bound parse_value f /\ fuel_bound parse_elements f
  /\ fuel_bound parse_members f.
Proof.
  induction f as [|f (IHv & IHe & IHm)].
  - split; [|split]; intros s x r Hparse; discriminate Hparse.
  - split; [now apply parse_value_fuel_step|].
    split; [now apply parse_elements_fuel_step
           |now apply parse_members_fuel_step].
Qed.

(** Whatever any amount of fuel reads, [JSON.parse] reads: a text that
    [JSON_parse] rejects is rejected with every fuel. *)
Lemma JSON_parse_fuel_enough f text v rest :
  parse_value f text = Some (v, rest) ->
  parse_value (2 * length text + 2) text = Some (v, rest).
Proof.
  intros Hparse.
  destruct (proj1 (parse_fuel_bound f) _ _ _ Hparse) as [_ Hfuel].
  apply Hfuel. lia.
Qed.

(* --------------------------------------------------------------------- *)
(** ** The methods, command by command *)
(* --------------------------------------------------------------------- *)

Section Steps.

Context {R : Type} `{RedisClient R}.
Implicit Types (w : World R) (key text : js_string).

Lemma get_miss key w r :
  redis_get key (redis w) = (Return None, r) ->
  get key w = (Return JNull, sent w r (GET key)).
Proof.
  intros Hget. unfold get, try_catch, bind, send. now rewrite Hget.
Qed.

Lemma get_found key w text r :
  redis_get key (redis w) = (Return (Some text), r) ->
  get key w
  = (Return (if truthy_string text then parse text else JNull),
     sent w r (GET key)).
Proof.
  intros Hget. unfold get, try_catch, bind, send. now rewrite Hget.
Qed.

Lemma get_error key w e r :
  redis_get key (redis w) = (Throw e, r) ->
  get key w
  = (Return JNull,
     logged w r (GET key) (lit "Cache GET operation failed: " ++ error_message e)).
Proof.
  intros Hget. unfold get, try_catch, bind, send. now rewrite Hget.
Qed.

Lemma set_ok key value ttl w reply r :
  run_write (write_command key value ttl) (redis w) = (Return reply, r) ->
  set key value ttl w = (Return reply, sent w r (write_command key value ttl)).
Proof.
  unfold set, write_command, truthy_number, try_catch, send.
  destruct ttl as [t|]; [destruct (t =? 0)%Z|]; simpl;
    intros Hrun; now rewrite Hrun.
Qed.

Lemma set_error key value ttl w e r :
  run_write (write_command key value ttl) (redis w) = (Throw e, r) ->
  set key value ttl w
  = (Throw (ExnCacheError
              (new_CacheError (lit "SET")
                 (lit "Cache SET operation failed: " ++ error_message e) None)),
     logged w r (write_command key value ttl)
       (lit "Cache SET operation failed: " ++ error_message e)).
Proof.
  unfold set, write_command, truthy_number, try_catch, send.
  destruct ttl as [t|]; [destruct (t =? 0)%Z|]; simpl;
    intros Hrun; now rewrite Hrun.
Qed.

Lemma set_wire key value ttl w :
  wire (snd (set key value ttl w)) = wire w ++ [write_command key value ttl].
Proof.
  destruct (run_write (write_command key value ttl) (redis w))
    as [[reply|e] r] eqn:Hrun.
  - now rewrite (set_ok _ _ _ _ _ _ Hrun).
  - now rewrite (set_error _ _ _ _ _ _ Hrun).
Qed.

Lemma get_invoked key w : invoked (snd (get key w)) = invoked w.
Proof.
  destruct (redis_get key (redis w)) as [[[text|]|e] r] eqn:Hget.
  - now rewrite (get_found _ _ _ _ Hget).
  - now rewrite (get_miss _ _ _ Hget).
  - now rewrite (get_error _ _ _ _ Hget).
Qed.

Lemma flush_error w e r :
  redis_flushall (redis w) = (Throw e, r) ->
  flush w
  = (Throw (ExnValue (JString (lit "OK"))),
     logged w r FLUSHALL (lit "Cache FLUSH operation failed: " ++ error_message e)).
Proof.
  intros Hrun. unfold flush, try_catch, bind, send. now rewrite Hrun.
Qed.

End Steps.

(* --------------------------------------------------------------------- *)
(** ** Error handling *)
(* --------------------------------------------------------------------- *)

(** C6. Whatever error the underlying read rejects with, [get] catches
    it: it writes the line ["Cache GET operation failed: <message>"] on
    the console and returns [null]; nothing is thrown to the caller. *)
Theorem get_fails_open {R : Type} `{RedisClient R}
  (key : js_string) (w : World R) (e : JsError) (r : R) :
  redis_get key (redis w) = (Throw e, r) ->
  get key w
  = (Return JNull,
     mkWorld r
       (console w ++ [lit "Cache GET operation failed: " ++ error_message e])
       (wire w ++ [GET key]) (invoked w)).
Proof. apply get_error. Qed.

Lemma get_fails_open_witness :
  get (lit "user:1") (boot (mkServer 0 ∅ (Some (new_Error (lit "ETIMEDOUT")))))
  = (Return JNull,
     mkWorld (mkServer 0 ∅ (Some (new_Error (lit "ETIMEDOUT"))))
       [lit "Cache GET operation failed: ETIMEDOUT"] [GET (lit "user:1")] 0%nat).
Proof.
  apply (get_fails_open (lit "user:1")
           (boot (mkServer 0 ∅ (Some (new_Error (lit "ETIMEDOUT")))))
           (new_Error (lit "ETIMEDOUT"))).
  reflexivity.
Defined.

(** C1, on the code: when FLUSHALL is rejected, [flush] logs the line and
    then throws the fallback ['OK'] instead of returning it. *)
Theorem flush_throws_its_fallback (now : Z) (data : gmap js_string Entry)
  (e : JsError) :
  flush (boot (mkServer now data (Some e)))
  = (Throw (ExnValue (JString (lit "OK"))),
     mkWorld (mkServer now data (Some e))
       [lit "Cache FLUSH operation failed: " ++ error_message e]
       [FLUSHALL] 0%nat).
Proof. reflexivity. Qed.

(** C4, on the code: when the write is rejected with [e], the CacheError
    that [set] throws names the operation, but its message has the prefix
    twice and its [originalError] is a new [Error] built from the
    formatted message, not [e]. *)
Theorem set_error_is_rewrapped (now : Z) (data : gmap js_string Entry)
  (e : JsError) (key : js_string) (value : Json) (ttl : option Z) :
  exists ce w',
    set key value ttl (boot (mkServer now data (Some e)))
      = (Throw (ExnCacheError ce), w')
    /\ operation ce = lit "SET"
    /\ message ce
       = lit "Cache SET operation failed: Cache SET operation failed: "
           ++ error_message e
    /\ message ce <> lit "Cache SET operation failed: " ++ error_message e
    /\ originalError ce
       = new_Error (lit "Cache SET operation failed: " ++ error_message e)
    /\ originalError ce <> e.
Proof.
  eexists _, _. split.
  { apply set_error with (e := e) (r := mkServer now data (Some e)).
    unfold write_command. destruct ttl as [t|]; [destruct (t =? 0)%Z|];
      reflexivity. }
  repeat split.
  - intros Heq. apply (f_equal length) in Heq. simpl in Heq. lia.
  - intros Heq. apply (f_equal error_message) in Heq.
    apply (f_equal length) in Heq. simpl in Heq. lia.
Qed.

(* --------------------------------------------------------------------- *)
(** ** Writing *)
(* --------------------------------------------------------------------- *)

(** Counterexample to C9 as stated: for a TTL of zero the facade sends a
    plain SET, and the entry never expires. *)
Lemma set_ttl_zero_is_plain_write :
  let w := snd (set (lit "k") (JString (lit "v")) (Some 0%Z)
                  (boot (mkServer 0 ∅ None))) in
  wire w = [SET (lit "k") (lit "v")]
  /\ wire w <> [SETEX (lit "k") 0 (lit "v")]
  /\ db (redis w) !! lit "k" = Some (mkEntry (lit "v") None).
Proof. vm_compute. repeat split. discriminate. Qed.

(** C9, amended. [set] sends exactly one command: SETEX carrying the TTL
    when a TTL other than zero is given (a negative one included), and a
    plain SET when no TTL or the TTL zero is given. *)
Theorem set_write_mode {R : Type} `{RedisClient R}
  (key : js_string) (value : Json) (t : Z) (w : World R) :
  t <> 0%Z ->
  wire (snd (set key value (Some t) w))
    = wire w ++ [SETEX key t (serialize value)]
  /\ wire (snd (set key value None w)) = wire w ++ [SET key (serialize value)]
  /\ wire (snd (set key value (Some 0%Z) w))
     = wire w ++ [SET key (serialize value)].
Proof.
  intros Ht. rewrite !set_wire. unfold write_command.
  destruct (Z.eqb_spec t 0); [contradiction|]. auto.
Qed.

Lemma set_write_mode_witness :
  wire (snd (set (lit "k") JNull (Some (-5)%Z) (boot (mkServer 0 ∅ None))))
  = [SETEX (lit "k") (-5) (lit "null")].
Proof.
  exact (proj1 (set_write_mode (lit "k") JNull (-5)
                  (boot (mkServer 0 ∅ None)) ltac:(discriminate))).
Defined.

(* --------------------------------------------------------------------- *)
(** ** The cache-aside pattern *)
(* --------------------------------------------------------------------- *)

Section Remember.

Context {R : Type} `{RedisClient R}.

Lemma remember_hit (key : js_string) (t : Z) (callback : Callback R)
  (w w' : World R) (cached : Json) :
  get key w = (Return cached, w') ->
  cached <> JNull ->
  remember key t callback w = (Return cached, w').
Proof.
  intros Hget Hcached. unfold remember, bind. rewrite Hget.
  destruct cached; try reflexivity. contradiction.
Qed.

Lemma remember_miss (key : js_string) (t : Z) (f : R -> Completion Exn Json * R)
  (w : World R) (v : Json) (reply : js_string) (r1 r2 r3 : R) :
  redis_get key (redis w) = (Return None, r1) ->
  f r1 = (Return v, r2) ->
  run_write (write_command key v (Some t)) r2 = (Return reply, r3) ->
  remember key t (Producer f) w
  = (Return v,
     mkWorld r3 (console w)
       (wire w ++ [GET key; write_command key v (Some t)]) (S (invoked w))).
Proof.
  intros Hget Hf Hset. unfold remember, bind.
  rewrite (get_miss _ _ _ Hget). simpl. rewrite Hf.
  erewrite set_ok by exact Hset.
  unfold sent. simpl. now rewrite <- app_assoc.
Qed.

Lemma remember_miss_literal (key : js_string) (t : Z) (w : World R) (v : Json)
  (reply : js_string) (r1 r3 : R) :
  redis_get key (redis w) = (Return None, r1) ->
  run_write (write_command key v (Some t)) r1 = (Return reply, r3) ->
  remember key t (Literal v) w
  = (Return v,
     mkWorld r3 (console w)
       (wire w ++ [GET key; write_command key v (Some t)]) (invoked w)).
Proof.
  intros Hget Hset. unfold remember, bind.
  rewrite (get_miss _ _ _ Hget). simpl.
  erewrite set_ok by exact Hset.
  unfold sent. simpl. now rewrite <- app_assoc.
Qed.

End Remember.

(** Counterexample to C3 as stated: for a TTL of zero the source is
    invoked once and its value returned, but the value is written by a
    plain SET and has no expiry. *)
Lemma remember_ttl_zero_has_no_expiry :
  let source := Producer (fun s : Server => (Return (JString (lit "v")), s)) in
  let run := remember (lit "k") 0 source (boot (mkServer 0 ∅ None)) in
  fst run = Return (JString (lit "v"))
  /\ invoked (snd run) = 1%nat
  /\ wire (snd run) = [GET (lit "k"); SET (lit "k") (lit "v")]
  /\ wire (snd run) <> [GET (lit "k"); SETEX (lit "k") 0 (lit "v")]
  /\ db (redis (snd run)) !! lit "k" = Some (mkEntry (lit "v") None).
Proof. vm_compute. repeat split. discriminate. Qed.

(** C3, amended. With a TTL [t] other than zero, when the read finds no
    key and the write is accepted: for a source that is a function
    returning [v], [remember] calls it exactly once, sends [SETEX key t]
    with the serialized [v] and returns [v]; for a source that is a
    literal [v] it does the same without any call. With any TTL and any
    source: when [get] returns a value other than [null], [remember]
    returns that value and the source is not called. *)
Theorem remember_cache_aside {R : Type} `{RedisClient R}
  (key : js_string) (t : Z) :
  (forall (f : R -> Completion Exn Json * R) (w : World R) (v : Json)
          (reply : js_string) (r1 r2 r3 : R),
      t <> 0%Z ->
      redis_get key (redis w) = (Return None, r1) ->
      f r1 = (Return v, r2) ->
      redis_setex key t (serialize v) r2 = (Return reply, r3) ->
      remember key t (Producer f) w
      = (Return v,
         mkWorld r3 (console w)
           (wire w ++ [GET key; SETEX key t (serialize v)])
           (S (invoked w))))
  /\ (forall (w : World R) (v : Json) (reply : js_string) (r1 r3 : R),
      t <> 0%Z ->
      redis_get key (redis w) = (Return None, r1) ->
      redis_setex key t (serialize v) r1 = (Return reply, r3) ->
      remember key t (Literal v) w
      = (Return v,
         mkWorld r3 (console w)
           (wire w ++ [GET key; SETEX key t (serialize v)])
           (invoked w)))
  /\ (forall (callback : Callback R) (w w' : World R) (cached : Json),
      get key w = (Return cached, w') ->
      cached <> JNull ->
      remember key t callback w = (Return cached, w')
      /\ invoked w' = invoked w).
Proof.
  assert (Hcmd : t <> 0%Z ->
                 forall v, write_command key v (Some t)
                           = SETEX key t (serialize v)).
  { intros Ht v. unfold write_command. now destruct (Z.eqb_spec t 0). }
  split; [|split].
  - intros f w v reply r1 r2 r3 Ht Hget Hf Hset.
    rewrite <- (Hcmd Ht).
    apply remember_miss with (reply := reply) (r1 := r1) (r2 := r2);
      [assumption .. |]. now rewrite (Hcmd Ht).
  - intros w v reply r1 r3 Ht Hget Hset.
    rewrite <- (Hcmd Ht).
    apply remember_miss_literal with (reply := reply) (r1 := r1);
      [assumption|]. now rewrite (Hcmd Ht).
  - intros callback w w' cached Hget Hcached. split.
    + now apply remember_hit.
    + pose proof (get_invoked key w) as Hinv. now rewrite Hget in Hinv.
Qed.

Lemma remember_cache_aside_witness :
  let source := Producer (fun s : Server => (Return (JBool true), s)) in
  let w := boot (mkServer 7 ∅ None) in
  remember (lit "k") 60 source w
  = (Return (JBool true),
     mkWorld (mkServer 7 {[ lit "k" := mkEntry (lit "true") (Some 67%Z) ]} None)
       [] [GET (lit "k"); SETEX (lit "k") 60 (lit "true")] 1%nat)
  /\ remember (lit "k") 60 (Literal JNull) (snd (remember (lit "k") 60 source w))
     = (Return (JBool true),
        mkWorld (mkServer 7 {[ lit "k" := mkEntry (lit "true") (Some 67%Z) ]} None)
          [] [GET (lit "k"); SETEX (lit "k") 60 (lit "true"); GET (lit "k")]
          1%nat).
Proof.
  split.
  - apply (proj1 (remember_cache_aside (lit "k") 60)) with
      (reply := lit "OK") (r1 := mkServer 7 ∅ None) (r2 := mkServer 7 ∅ None);
      [discriminate | reflexivity ..].
  - apply (proj2 (proj2 (remember_cache_aside (lit "k") 60))); [|discriminate].
    vm_compute. reflexivity.
Defined.

(* --------------------------------------------------------------------- *)
(** ** Construction *)
(* --------------------------------------------------------------------- *)

(** The constructor keeps a client that is an instance of [Redis]: no
    object is created and [client()] is the reference given. *)
Lemma constructor_keeps_Redis_instance (h : Construction.Heap) (ref : nat)
  (o : Construction.ClientObject) (rest : list Construction.Arg) :
  h !! ref = Some o ->
  Construction.class_of o = Construction.RedisClass ->
  Construction.new_Cache (Construction.ArgObject ref :: rest) h
  = (Construction.mkCache ref, h).
Proof.
  intros Hlook Hclass. unfold Construction.new_Cache. simpl.
  now rewrite Hlook, Hclass.
Qed.

(** C5, on the code: the cluster client that the static factory builds is
    not an instance of [Redis], so the constructor builds a second,
    single-node client from it and keeps that one: [client()] is not the
    cluster client. *)
Theorem Cluster_factory_drops_the_cluster_client
  (nodes : list Construction.ClusterNode) (options : option Json)
  (h : Construction.Heap) :
  let cluster := fst (Construction.new_Cluster nodes options h) in
  let '(cache, h') := Construction.Cluster nodes options h in
  Construction.client cache <> cluster
  /\ length h' = S (S (length h))
  /\ Construction.class_of <$> h' !! cluster = Some Construction.ClusterClass
  /\ Construction.class_of <$> h' !! Construction.client cache
     = Some Construction.RedisClass.
Proof.
  unfold Construction.Cluster, Construction.new_Cluster, Construction.new_Cache,
    Construction.new_Redis, Construction.allocate, Construction.instanceof_Redis,
    Construction.client.
  simpl. rewrite list_lookup_middle by reflexivity. simpl.
  repeat split.
  - rewrite length_app. simpl. lia.
  - rewrite !length_app. simpl. lia.
  - rewrite lookup_app_l by (rewrite length_app; simpl; lia).
    now rewrite list_lookup_middle.
  - now rewrite list_lookup_middle.
Qed.

(* --------------------------------------------------------------------- *)
(** ** Serialization *)
(* --------------------------------------------------------------------- *)

(** C8. A string is stored as it is, a number as its decimal text and a
    boolean as [true] or [false], none of them as JSON text in quotes;
    objects, arrays and [null] are stored as their JSON text. So the
    number 5 and the string ["5"] are stored as the same text. *)
Theorem serialize_forms :
  (forall s, serialize (JString s) = s
             /\ serialize (JString s) <> JSON_stringify (JString s))
  /\ (forall n, serialize (JNumber n) = Number_toString n)
  /\ (forall b : bool,
        serialize (JBool b) = if b then lit "true" else lit "false")
  /\ (forall fields,
        serialize (JObject fields) = JSON_stringify (JObject fields))
  /\ (forall items, serialize (JArray items) = JSON_stringify (JArray items))
  /\ serialize JNull = lit "null"
  /\ serialize (JNumber (number_of_Z 5)) = lit "5"
  /\ serialize (JString (lit "5")) = lit "5".
Proof.
  repeat split; try reflexivity.
  intros Heq. apply (f_equal length) in Heq. simpl in Heq.
  rewrite length_app in Heq. simpl in Heq.
  assert (Hlen : forall p (u : js_string),
             (length u <= length (quote_units p u))%nat).
  { intros p u. revert p. induction u as [|c u IH]; intros p; simpl; [lia|].
    rewrite length_app. specialize (IH (is_high_surrogate c)).
    assert (1 <= length (quote_unit p c
              match u with d :: _ => is_low_surrogate d | [] => false end))%nat;
      [|lia].
    unfold quote_unit, unicode_escape.
    repeat match goal with |- context [if ?b then _ else _] => destruct b end;
      simpl; lia. }
  specialize (Hlen false s). lia.
Qed.

(* --------------------------------------------------------------------- *)
(** ** Reading back *)
(* --------------------------------------------------------------------- *)

(** C10. When the text stored under a key is the empty string, [get]
    returns [null] although the key is there: [exists] returns [true]. *)
Theorem get_empty_text_is_absent (w : World Server) (key : js_string)
  (e : Entry) :
  outage (redis w) = None ->
  live (redis w) key = Some e ->
  payload e = [] ->
  fst (get key w) = Return JNull
  /\ fst (exists_ key w) = Return true.
Proof.
  intros Hup Hlive Hempty. split.
  - erewrite get_found.
    2:{ simpl. unfold server_get, answer. rewrite Hup, Hlive. reflexivity. }
    simpl. now rewrite Hempty.
  - unfold exists_, uncaught, bind, send, ret. simpl.
    unfold server_exists, answer. now rewrite Hup, Hlive.
Qed.

Lemma get_empty_text_is_absent_witness :
  let w := snd (set (lit "k") (JString []) None (boot (mkServer 0 ∅ None))) in
  fst (get (lit "k") w) = Return JNull
  /\ fst (exists_ (lit "k") w) = Return true.
Proof.
  apply (get_empty_text_is_absent
           (snd (set (lit "k") (JString []) None (boot (mkServer 0 ∅ None))))
           (lit "k") (mkEntry [] None)); reflexivity.
Defined.

(** Counterexample to C7 as stated: a key that holds the empty string, or
    the text of [null], exists, and [get] returns [null] for it. *)
Lemma exists_without_get :
  let s := mkServer 0 {[ lit "a" := mkEntry [] None;
                         lit "b" := mkEntry (lit "null") None ]} None in
  fst (exists_ (lit "a") (boot s)) = Return true
  /\ fst (get (lit "a") (boot s)) = Return JNull
  /\ fst (exists_ (lit "b") (boot s)) = Return true
  /\ fst (get (lit "b") (boot s)) = Return JNull.
Proof. vm_compute. repeat split. Qed.

(** Counterexample to C2 as stated: the string ["5"] is stored as [5] and
    read back as the number 5; the empty string is read back as [null]. *)
Lemma string_does_not_round_trip :
  let w := boot (mkServer 0 ∅ None) in
  fst (get (lit "k") (snd (set (lit "k") (JString (lit "5")) (Some 60%Z) w)))
    = Return (JNumber (number_of_Z 5))
  /\ ~ deep_equal (JNumber (number_of_Z 5)) (JString (lit "5"))
  /\ fst (get (lit "k") (snd (set (lit "k") (JString []) (Some 60%Z) w)))
     = Return JNull
  /\ ~ deep_equal JNull (JString []).
Proof.
  repeat split; try (vm_compute; reflexivity); intros Hde; inversion Hde.
Qed.

(* --------------------------------------------------------------------- *)
(** ** Writing, then reading *)
(* --------------------------------------------------------------------- *)

(** The stored text of an unambiguous value is not empty and parses to
    the value. *)
Lemma parse_serialize v :
  wf_json v -> unambiguous v ->
  truthy_string (serialize v) = true /\ parse (serialize v) = v.
Proof.
  intros Hwf Hplain. unfold parse.
  destruct v as [|b|n|s|items|fields];
    try (change (serialize ?x) with (JSON_stringify x);
         rewrite JSON_parse_stringify by assumption;
         destruct (stringify_head _ Hwf) as (c & t & -> & _); now split).
  destruct Hplain as [Hne Hparse]. simpl. rewrite Hparse.
  now destruct s.
Qed.

Lemma live_after_store (s : Server) key text (t dt : Z) :
  (0 <= dt < t)%Z ->
  live (elapse dt (store key (mkEntry text (Some (clock s + t)%Z)) s)) key
  = Some (mkEntry text (Some (clock s + t)%Z)).
Proof.
  intros Hdt. unfold live, elapse, store. simpl.
  rewrite lookup_insert_eq. simpl.
  destruct (Z.ltb_spec (clock s + dt) (clock s + t)); [reflexivity|lia].
Qed.

Lemma get_after_setex (w : World Server) key (v : Json) (t dt : Z) :
  wf_json v -> unambiguous v ->
  outage (redis w) = None -> (0 <= dt < t)%Z ->
  fst (get key
         (later dt
            (sent w (store key (mkEntry (serialize v) (Some (clock (redis w) + t)%Z))
                       (redis w))
               (SETEX key t (serialize v)))))
  = Return v.
Proof.
  intros Hwf Hplain Hup Hdt.
  destruct (parse_serialize v Hwf Hplain) as [Htruthy Hparse].
  erewrite get_found.
  2:{ simpl. unfold server_get, answer. simpl. rewrite Hup.
      rewrite live_after_store by assumption. reflexivity. }
  simpl. now rewrite Htruthy, Hparse.
Qed.

(** A string that is not a JSON text, as a caller may store it. *)
Lemma plain_string_is_unambiguous :
  unambiguous (JString (lit "John Doe")).
Proof. split; [discriminate|]. vm_compute. reflexivity. Qed.

(** C2, amended. For every well-formed value that is not a string, and
    every string that is neither empty nor a JSON text, and every TTL
    [t > 0]: on a store that answers, [set(k, v, t)] returns ['OK'], and
    [get(k)] right after it, or at any time before [t] seconds have
    passed, returns a value deep-equal to [v] (the value [v] itself). *)
Theorem set_then_get_round_trip (w : World Server) (key : js_string)
  (v : Json) (t : Z) :
  wf_json v -> unambiguous v ->
  outage (redis w) = None -> (0 < t)%Z ->
  let written := set key v (Some t) w in
  fst written = Return (lit "OK")
  /\ (exists v', fst (get key (snd written)) = Return v' /\ deep_equal v' v)
  /\ (forall dt, (0 <= dt < t)%Z ->
        exists v', fst (get key (later dt (snd written))) = Return v'
                   /\ deep_equal v' v).
Proof.
  intros Hwf Hplain Hup Ht written.
  assert (Hset : written
                 = (Return (lit "OK"),
                    sent w (store key (mkEntry (serialize v)
                                         (Some (clock (redis w) + t)%Z)) (redis w))
                      (SETEX key t (serialize v)))).
  { subst written.
    assert (Hcmd : write_command key v (Some t) = SETEX key t (serialize v)).
    { unfold write_command. destruct (Z.eqb_spec t 0); [lia|reflexivity]. }
    rewrite <- Hcmd. apply set_ok. rewrite Hcmd. simpl.
    unfold server_setex, answer. rewrite Hup.
    destruct (Z.ltb_spec 0 t); [reflexivity|lia]. }
  rewrite Hset. simpl fst. simpl snd. split; [reflexivity|]. split.
  - exists v. split; [|apply deep_equal_refl].
    pose proof (get_after_setex w key v t 0 Hwf Hplain Hup ltac:(lia)) as Hget.
    unfold later, elapse in Hget. simpl in Hget.
    rewrite Z.add_0_r in Hget.
    destruct (redis w) as [now data down]. exact Hget.
  - intros dt Hdt. exists v. split; [|apply deep_equal_refl].
    now apply get_after_setex.
Qed.

Lemma set_then_get_round_trip_witness :
  let v := JObject [(lit "name", JString (lit "John Doe"));
                    (lit "age", JNumber (number_of_Z 42))] in
  let written := set (lit "user:1") v (Some 3600%Z) (boot (mkServer 0 ∅ None)) in
  fst written = Return (lit "OK")
  /\ (exists v', fst (get (lit "user:1") (snd written)) = Return v'
                 /\ deep_equal v' v)
  /\ (forall dt, (0 <= dt < 3600)%Z ->
        exists v', fst (get (lit "user:1") (later dt (snd written))) = Return v'
                   /\ deep_equal v' v).
Proof.
  apply (set_then_get_round_trip (boot (mkServer 0 ∅ None)) (lit "user:1")
           (JObject [(lit "name", JString (lit "John Doe"));
                     (lit "age", JNumber (number_of_Z 42))]) 3600).
  - apply wf_object.
    + apply NoDup_cons. split; [|apply NoDup_singleton].
      intros Hin. apply list_elem_of_singleton in Hin. discriminate Hin.
    + repeat constructor; vm_compute; congruence.
  - exact I.
  - reflexivity.
  - reflexivity.
Defined.

(** C7, amended. On the same state of the store, [exists(k)] returns
    [true] exactly when [get(k)] returns a value other than [null],
    provided the text stored under [k], if there is one, is not empty and
    does not parse to [null]. *)
Theorem exists_iff_get_present (w : World Server) (key : js_string) :
  (forall e, live (redis w) key = Some e ->
             payload e <> [] /\ parse (payload e) <> JNull) ->
  fst (exists_ key w) = Return true
  <-> (exists v, fst (get key w) = Return v /\ v <> JNull).
Proof.
  intros Htext.
  unfold exists_, uncaught, get, try_catch, bind, send, ret. simpl.
  unfold server_exists, server_get, answer.
  destruct (outage (redis w)) as [e|]; simpl.
  { split; [discriminate|]. intros (v & Hv & Hnull). injection Hv as <-. contradiction. }
  destruct (live (redis w) key) as [e|]; simpl.
  - destruct (Htext e eq_refl) as [Hne Hparse].
    split; [|reflexivity]. intros _.
    exists (parse (payload e)). split; [|assumption].
    now destruct (payload e).
  - split; [discriminate|]. intros (v & Hv & Hnull). injection Hv as <-. contradiction.
Qed.

Lemma exists_iff_get_present_witness :
  let w := boot (mkServer 0 {[ lit "k" := mkEntry (lit "[1,2]") None ]} None) in
  fst (exists_ (lit "k") w) = Return true
  <-> (exists v, fst (get (lit "k") w) = Return v /\ v <> JNull).
Proof.
  apply (exists_iff_get_present
           (boot (mkServer 0 {[ lit "k" := mkEntry (lit "[1,2]") None ]} None))
           (lit "k")).
  intros e He. vm_compute in He. inversion He; subst. clear He.
  split; [discriminate|]. vm_compute. discriminate.
Defined.

(* --------------------------------------------------------------------- *)
(** ** Every method, on every client *)
(* --------------------------------------------------------------------- *)

Section Methods.

Context {R : Type} `{RedisClient R}.
Implicit Types (w : World R) (key : js_string).

Lemma delete_ok key w count r :
  redis_del key (redis w) = (Return count, r) ->
  delete key w = (Return count, sent w r (DEL key)).
Proof.
  intros Hrun. unfold delete, try_catch, send. now rewrite Hrun.
Qed.

Lemma delete_error key w e r :
  redis_del key (redis w) = (Throw e, r) ->
  delete key w
  = (Throw (ExnCacheError
              (new_CacheError (lit "DELETE")
                 (lit "Cache DELETE operation failed: " ++ error_message e) None)),
     logged w r (DEL key)
       (lit "Cache DELETE operation failed: " ++ error_message e)).
Proof.
  intros Hrun. unfold delete, try_catch, send. now rewrite Hrun.
Qed.

Lemma flush_ok w reply r :
  redis_flushall (redis w) = (Return reply, r) ->
  flush w = (Return reply, sent w r FLUSHALL).
Proof.
  intros Hrun. unfold flush, try_catch, send. now rewrite Hrun.
Qed.

Lemma exists_ok key w count r :
  redis_exists key (redis w) = (Return count, r) ->
  exists_ key w = (Return (0 <? count)%Z, sent w r (EXISTS key)).
Proof.
  intros Hrun. unfold exists_, uncaught, bind, send. now rewrite Hrun.
Qed.

Lemma exists_error key w e r :
  redis_exists key (redis w) = (Throw e, r) ->
  exists_ key w = (Throw (ExnError e), sent w r (EXISTS key)).
Proof.
  intros Hrun. unfold exists_, uncaught, bind, send. now rewrite Hrun.
Qed.

Lemma get_outcome key w :
  exists v r,
    get key w = (Return v, sent w r (GET key))
    \/ exists e,
         get key w
         = (Return v,
            logged w r (GET key)
              (lit "Cache GET operation failed: " ++ error_message e)).
Proof.
  destruct (redis_get key (redis w)) as [[[text|]|e] r] eqn:Hget.
  - exists (if truthy_string text then parse text else JNull), r.
    left. now apply get_found.
  - exists JNull, r. left. now apply get_miss.
  - exists JNull, r. right. exists e. now apply get_error.
Qed.

End Methods.

(** X1. Whatever the client does, [get] returns: it never throws. It
    sends the one GET for the key, calls no source, and writes at most one
    line on the console. *)
Theorem get_always_returns {R : Type} `{RedisClient R}
  (key : js_string) (w : World R) :
  exists v w',
    get key w = (Return v, w')
    /\ wire w' = wire w ++ [GET key]
    /\ invoked w' = invoked w
    /\ (console w' = console w \/ exists line, console w' = console w ++ [line]).
Proof.
  destruct (get_outcome key w) as (v & r & [Hget|[e Hget]]);
    rewrite Hget; eexists _, _; (split; [reflexivity|]); simpl; eauto.
Qed.

(** X2. Each of [get], [set], [delete], [flush] and [exists] sends
    exactly one command, for the key it was given, whether the client
    accepts it or not. *)
Theorem primitives_send_one_command {R : Type} `{RedisClient R}
  (key : js_string) (value : Json) (ttl : option Z) (w : World R) :
  wire (snd (get key w)) = wire w ++ [GET key]
  /\ wire (snd (set key value ttl w))
     = wire w ++ [match ttl with
                  | Some t =>
                    if (t =? 0)%Z then SET key (serialize value)
                    else SETEX key t (serialize value)
                  | None => SET key (serialize value)
                  end]
  /\ wire (snd (delete key w)) = wire w ++ [DEL key]
  /\ wire (snd (flush w)) = wire w ++ [FLUSHALL]
  /\ wire (snd (exists_ key w)) = wire w ++ [EXISTS key].
Proof.
  repeat split.
  - destruct (get_outcome key w) as (v & r & [Hget|[e Hget]]); now rewrite Hget.
  - apply set_wire.
  - destruct (redis_del key (redis w)) as [[count|e] r] eqn:Hrun.
    + now rewrite (delete_ok _ _ _ _ Hrun).
    + now rewrite (delete_error _ _ _ _ Hrun).
  - destruct (redis_flushall (redis w)) as [[reply|e] r] eqn:Hrun.
    + now rewrite (flush_ok _ _ _ Hrun).
    + now rewrite (flush_error _ _ _ Hrun).
  - destruct (redis_exists key (redis w)) as [[count|e] r] eqn:Hrun.
    + now rewrite (exists_ok _ _ _ _ Hrun).
    + now rewrite (exists_error _ _ _ _ Hrun).
Qed.

(** X3. [exists] has no error handling of its own: whatever the client
    does it writes nothing on the console and throws no CacheError; an
    error of EXISTS reaches the caller as the client raised it. *)
Theorem exists_never_logs_nor_wraps {R : Type} `{RedisClient R}
  (key : js_string) (w : World R) :
  console (snd (exists_ key w)) = console w
  /\ (forall ce, fst (exists_ key w) <> Throw (ExnCacheError ce))
  /\ (forall e r, redis_exists key (redis w) = (Throw e, r) ->
                  fst (exists_ key w) = Throw (ExnError e)).
Proof.
  destruct (redis_exists key (redis w)) as [[count|e] r] eqn:Hrun.
  - rewrite (exists_ok _ _ _ _ Hrun). repeat split; discriminate.
  - rewrite (exists_error _ _ _ _ Hrun). repeat split; try discriminate.
    intros e' r' [= -> ->]. reflexivity.
Qed.

Lemma exists_never_logs_nor_wraps_witness :
  fst (exists_ (lit "k") (boot (mkServer 0 ∅ (Some (new_Error (lit "ECONNRESET"))))))
  = Throw (ExnError (new_Error (lit "ECONNRESET"))).
Proof.
  apply (proj2 (proj2 (exists_never_logs_nor_wraps (lit "k")
                         (boot (mkServer 0 ∅ (Some (new_Error (lit "ECONNRESET"))))))))
    with (r := mkServer 0 ∅ (Some (new_Error (lit "ECONNRESET")))).
  reflexivity.
Defined.

(** X4. [delete] is fail-closed. When DEL is accepted, [delete] returns
    the count of the client and writes nothing. When DEL is rejected with
    [e], it writes ["Cache DELETE operation failed: <message>"] on the
    console and throws a CacheError whose operation is [DELETE] and whose
    message is that line behind the same prefix once more. *)
Theorem delete_fails_closed {R : Type} `{RedisClient R}
  (key : js_string) (w : World R) :
  (forall count r,
      redis_del key (redis w) = (Return count, r) ->
      delete key w
      = (Return count, mkWorld r (console w) (wire w ++ [DEL key]) (invoked w)))
  /\ (forall e r,
      redis_del key (redis w) = (Throw e, r) ->
      exists ce,
        delete key w
        = (Throw (ExnCacheError ce),
           mkWorld r
             (console w ++ [lit "Cache DELETE operation failed: " ++ error_message e])
             (wire w ++ [DEL key]) (invoked w))
        /\ name ce = lit "CacheError"
        /\ operation ce = lit "DELETE"
        /\ message ce
           = lit "Cache DELETE operation failed: Cache DELETE operation failed: "
               ++ error_message e).
Proof.
  split.
  - intros count r Hrun. now apply delete_ok.
  - intros e r Hrun. eexists. split; [now apply delete_error|].
    repeat split.
Qed.

Lemma delete_fails_closed_witness :
  delete (lit "k") (boot (mkServer 0 {[ lit "k" := mkEntry (lit "v") None ]} None))
  = (Return 1%Z, mkWorld (mkServer 0 ∅ None) [] [DEL (lit "k")] 0%nat)
  /\ exists ce,
       fst (delete (lit "k") (boot (mkServer 0 ∅ (Some (new_Error (lit "boom"))))))
       = Throw (ExnCacheError ce)
       /\ operation ce = lit "DELETE".
Proof.
  split.
  - rewrite (proj1 (delete_fails_closed (lit "k")
                      (boot (mkServer 0 {[ lit "k" := mkEntry (lit "v") None ]} None)))
               1%Z (mkServer 0 ∅ None)); [reflexivity|].
    vm_compute. reflexivity.
  - pose proof (proj2 (delete_fails_closed (lit "k")
                         (boot (mkServer 0 ∅ (Some (new_Error (lit "boom")))))))
      as Hclosed.
    destruct (Hclosed (new_Error (lit "boom"))
                (mkServer 0 ∅ (Some (new_Error (lit "boom")))))
      as (ce & Hrun & _ & Hop & _); [reflexivity|].
    exists ce. rewrite Hrun. split; [reflexivity|exact Hop].
Defined.

(* --------------------------------------------------------------------- *)
(** ** The cache-aside pattern, path by path *)
(* --------------------------------------------------------------------- *)

Section Patterns.

Context {R : Type} `{RedisClient R}.
Implicit Types (w : World R) (key : js_string).

(** The world after a source function was called and left the client in
    [r]. *)
Lemma resolve_producer (f : R -> Completion Exn Json * R) w result r :
  f (redis w) = (result, r) ->
  resolve (Producer f) w
  = (result, mkWorld r (console w) (wire w) (S (invoked w))).
Proof. intros Hf. unfold resolve. now rewrite Hf. Qed.

Lemma forever_hit key (callback : Callback R) w w' cached :
  get key w = (Return cached, w') ->
  cached <> JNull ->
  forever key callback w = (Return cached, w').
Proof.
  intros Hget Hcached. unfold forever, bind. rewrite Hget.
  destruct cached; try reflexivity. contradiction.
Qed.

(** After a miss, [remember] and [forever] are the source followed by
    the write. *)
Lemma remember_after_miss key t (callback : Callback R) w w1 :
  get key w = (Return JNull, w1) ->
  remember key t callback w
  = (let! result := resolve callback in
     let! _ := set key result (Some t) in
     ret result) w1.
Proof. intros Hget. unfold remember at 1, bind at 1. now rewrite Hget. Qed.

Lemma forever_after_miss key (callback : Callback R) w w1 :
  get key w = (Return JNull, w1) ->
  forever key callback w
  = (let! result := resolve callback in
     let! _ := set key result None in
     ret result) w1.
Proof. intros Hget. unfold forever at 1, bind at 1. now rewrite Hget. Qed.

(** The source and the write, whatever they do: the commands sent are
    none, or the one write for the key. *)
Lemma resolve_then_set_wire key (ttl : option Z) (callback : Callback R) w1 :
  let run := (let! result := resolve callback in
              let! _ := set key result ttl in
              ret result) w1 in
  wire (snd run) = wire w1
  \/ exists v, wire (snd run) = wire w1 ++ [write_command key v ttl].
Proof.
  unfold bind. destruct callback as [v|f]; simpl.
  - right. exists v. pose proof (set_wire key v ttl w1) as Hwire.
    destruct (set key v ttl w1) as [[reply|x] w2]; exact Hwire.
  - destruct (f (redis w1)) as [[v|x] r2] eqn:Hf; [|now left].
    right. exists v.
    pose proof (set_wire key v ttl
                  (mkWorld r2 (console w1) (wire w1) (S (invoked w1)))) as Hwire.
    destruct (set key v ttl _) as [[reply|x] w2]; exact Hwire.
Qed.

End Patterns.

(** X5. [forever] is the cache-aside pattern without expiry. When the
    read finds no key and the plain SET is accepted: a source that is a
    function returning [v] is called exactly once, a literal [v] is taken
    as it is; the serialized [v] is written by SET (never SETEX) and [v]
    is returned. When [get] returns a value other than [null], that value
    is returned, nothing is written and the source is not called. *)
Theorem forever_cache_aside {R : Type} `{RedisClient R} (key : js_string) :
  (forall (f : R -> Completion Exn Json * R) (w : World R) (v : Json)
          (reply : js_string) (r1 r2 r3 : R),
      redis_get key (redis w) = (Return None, r1) ->
      f r1 = (Return v, r2) ->
      redis_set key (serialize v) r2 = (Return reply, r3) ->
      forever key (Producer f) w
      = (Return v,
         mkWorld r3 (console w)
           (wire w ++ [GET key; SET key (serialize v)]) (S (invoked w))))
  /\ (forall (w : World R) (v : Json) (reply : js_string) (r1 r3 : R),
      redis_get key (redis w) = (Return None, r1) ->
      redis_set key (serialize v) r1 = (Return reply, r3) ->
      forever key (Literal v) w
      = (Return v,
         mkWorld r3 (console w)
           (wire w ++ [GET key; SET key (serialize v)]) (invoked w)))
  /\ (forall (callback : Callback R) (w w' : World R) (cached : Json),
      get key w = (Return cached, w') ->
      cached <> JNull ->
      forever key callback w = (Return cached, w')
      /\ invoked w' = invoked w
      /\ wire w' = wire w ++ [GET key]).
Proof.
  split; [|split].
  - intros f w v reply r1 r2 r3 Hget Hf Hset.
    rewrite (forever_after_miss key _ w _ (get_miss _ _ _ Hget)).
    unfold bind. erewrite resolve_producer by exact Hf. cbv beta iota.
    erewrite (set_ok key v None) by exact Hset.
    unfold sent, write_command. simpl. now rewrite <- app_assoc.
  - intros w v reply r1 r3 Hget Hset.
    rewrite (forever_after_miss key _ w _ (get_miss _ _ _ Hget)).
    unfold bind. change (resolve (Literal v) ?x) with (Return (E := Exn) v, x).
    cbv beta iota. erewrite (set_ok key v None) by exact Hset.
    unfold sent, write_command. simpl. now rewrite <- app_assoc.
  - intros callback w w' cached Hget Hcached. split; [now apply forever_hit|].
    destruct (get_outcome key w) as (v & r & [Hout|[e Hout]]);
      rewrite Hout in Hget; injection Hget as <- <-; now split.
Qed.

Lemma forever_cache_aside_witness :
  let source := Producer (fun s : Server => (Return (JBool false), s)) in
  forever (lit "k") source (boot (mkServer 7 ∅ None))
  = (Return (JBool false),
     mkWorld (mkServer 7 {[ lit "k" := mkEntry (lit "false") None ]} None)
       [] [GET (lit "k"); SET (lit "k") (lit "false")] 1%nat).
Proof.
  apply (proj1 (forever_cache_aside (lit "k"))) with
    (reply := lit "OK") (r1 := mkServer 7 ∅ None) (r2 := mkServer 7 ∅ None);
    reflexivity.
Defined.

(** X6. When the source function throws after a miss, [remember] and
    [forever] throw what it threw: the source was called once, no write
    was sent and nothing was logged. *)
Theorem source_error_propagates {R : Type} `{RedisClient R}
  (key : js_string) (t : Z) (f : R -> Completion Exn Json * R)
  (w w1 : World R) (x : Exn) (r2 : R) :
  get key w = (Return JNull, w1) ->
  f (redis w1) = (Throw x, r2) ->
  remember key t (Producer f) w
    = (Throw x, mkWorld r2 (console w1) (wire w1) (S (invoked w1)))
  /\ forever key (Producer f) w
     = (Throw x, mkWorld r2 (console w1) (wire w1) (S (invoked w1))).
Proof.
  intros Hget Hf. split.
  - rewrite (remember_after_miss key t _ w w1 Hget). unfold bind.
    now rewrite (resolve_producer f w1 _ _ Hf).
  - rewrite (forever_after_miss key _ w w1 Hget). unfold bind.
    now rewrite (resolve_producer f w1 _ _ Hf).
Qed.

Lemma source_error_propagates_witness :
  let failing := fun s : Server =>
                   (Throw (ExnError (new_Error (lit "no such user"))), s) in
  remember (lit "k") 60 (Producer failing) (boot (mkServer 0 ∅ None))
  = (Throw (ExnError (new_Error (lit "no such user"))),
     mkWorld (mkServer 0 ∅ None) [] [GET (lit "k")] 1%nat).
Proof.
  destruct (source_error_propagates (lit "k") 60
              (fun s : Server =>
                 (Throw (ExnError (new_Error (lit "no such user"))), s))
              (boot (mkServer 0 ∅ None))
              (mkWorld (mkServer 0 ∅ None) [] [GET (lit "k")] 0%nat)
              (ExnError (new_Error (lit "no such user")))
              (mkServer 0 ∅ None)) as [Hremember _];
    [reflexivity | reflexivity | exact Hremember].
Defined.

(** X7. A failed read counts as a miss. When GET is rejected with [e],
    [remember] logs the GET failure, calls the source and writes its
    value as after a miss; the caller gets the value and no error. *)
Theorem remember_read_failure_is_miss {R : Type} `{RedisClient R}
  (key : js_string) (t : Z) (f : R -> Completion Exn Json * R)
  (w : World R) (e : JsError) (v : Json) (reply : js_string) (r1 r2 r3 : R) :
  t <> 0%Z ->
  redis_get key (redis w) = (Throw e, r1) ->
  f r1 = (Return v, r2) ->
  redis_setex key t (serialize v) r2 = (Return reply, r3) ->
  remember key t (Producer f) w
  = (Return v,
     mkWorld r3
       (console w ++ [lit "Cache GET operation failed: " ++ error_message e])
       (wire w ++ [GET key; SETEX key t (serialize v)]) (S (invoked w))).
Proof.
  intros Ht Hget Hf Hset.
  rewrite (remember_after_miss key t _ w _ (get_error _ _ _ _ Hget)).
  unfold bind. erewrite resolve_producer by exact Hf. cbv beta iota.
  assert (Hcmd : write_command key v (Some t) = SETEX key t (serialize v)).
  { unfold write_command. now destruct (Z.eqb_spec t 0). }
  erewrite (set_ok key v (Some t)) by (rewrite Hcmd; exact Hset).
  rewrite Hcmd. unfold sent. simpl. now rewrite <- app_assoc.
Qed.

Lemma remember_read_failure_is_miss_witness :
  let flaky := {| redis_get := fun _ (n : nat) => (Throw (new_Error (lit "ETIMEDOUT")), n);
                  redis_set := fun _ _ n => (Return (lit "OK"), S n);
                  redis_setex := fun _ _ _ n => (Return (lit "OK"), S n);
                  redis_del := fun _ n => (Return 0%Z, n);
                  redis_exists := fun _ n => (Return 0%Z, n);
                  redis_flushall := fun n => (Return (lit "OK"), n) |} in
  @remember nat flaky (lit "k") 60 (Producer (fun n => (Return JNull, n)))
    (mkWorld 0%nat [] [] 0%nat)
  = (Return JNull,
     mkWorld 1%nat [lit "Cache GET operation failed: ETIMEDOUT"]
       [GET (lit "k"); SETEX (lit "k") 60 (lit "null")] 1%nat).
Proof.
  intros flaky.
  apply (@remember_read_failure_is_miss nat flaky (lit "k") 60
           (fun n => (Return JNull, n)) (mkWorld 0%nat [] [] 0%nat)
           (new_Error (lit "ETIMEDOUT")) JNull (lit "OK") 0%nat 0%nat 1%nat);
    [discriminate | reflexivity ..].
Defined.

(** X8. When the write after a miss is rejected with [e], [remember]
    throws the CacheError of [set]: the source was called and its value
    is not returned. *)
Theorem remember_write_failure {R : Type} `{RedisClient R}
  (key : js_string) (t : Z) (f : R -> Completion Exn Json * R)
  (w w1 : World R) (e : JsError) (v : Json) (r2 r3 : R) :
  t <> 0%Z ->
  get key w = (Return JNull, w1) ->
  f (redis w1) = (Return v, r2) ->
  redis_setex key t (serialize v) r2 = (Throw e, r3) ->
  remember key t (Producer f) w
  = (Throw (ExnCacheError
              (new_CacheError (lit "SET")
                 (lit "Cache SET operation failed: " ++ error_message e) None)),
     mkWorld r3
       (console w1 ++ [lit "Cache SET operation failed: " ++ error_message e])
       (wire w1 ++ [SETEX key t (serialize v)]) (S (invoked w1))).
Proof.
  intros Ht Hget Hf Hset.
  rewrite (remember_after_miss key t _ w w1 Hget).
  unfold bind. erewrite resolve_producer by exact Hf. cbv beta iota.
  assert (Hcmd : write_command key v (Some t) = SETEX key t (serialize v)).
  { unfold write_command. now destruct (Z.eqb_spec t 0). }
  erewrite (set_error key v (Some t)) by (rewrite Hcmd; exact Hset).
  now rewrite Hcmd.
Qed.

Lemma remember_write_failure_witness :
  exists ce,
    fst (remember (lit "k") (-1) (Producer (fun s : Server => (Return JNull, s)))
           (boot (mkServer 0 ∅ None)))
    = Throw (ExnCacheError ce)
    /\ operation ce = lit "SET".
Proof.
  eexists. split.
  - erewrite (remember_write_failure (lit "k") (-1)
                (fun s : Server => (Return JNull, s))
                (boot (mkServer 0 ∅ None))
                (mkWorld (mkServer 0 ∅ None) [] [GET (lit "k")] 0%nat));
      [reflexivity | discriminate | reflexivity ..].
  - reflexivity.
Defined.

(** X9. Whatever the client and the source do, [remember] and [forever]
    send GET for the key and then at most one command, the write of
    [set] for the same key; they never delete and never flush. *)
Theorem patterns_send_get_then_one_write {R : Type} `{RedisClient R}
  (key : js_string) (t : Z) (callback : Callback R) (w : World R) :
  (wire (snd (remember key t callback w)) = wire w ++ [GET key]
   \/ exists v,
        wire (snd (remember key t callback w))
        = wire w ++ [GET key;
                     if (t =? 0)%Z then SET key (serialize v)
                     else SETEX key t (serialize v)])
  /\ (wire (snd (forever key callback w)) = wire w ++ [GET key]
      \/ exists v,
           wire (snd (forever key callback w))
           = wire w ++ [GET key; SET key (serialize v)]).
Proof.
  destruct (get key w) as [[cached|x] w1] eqn:Hget.
  2:{ destruct (get_outcome key w) as (v & r & [Hout|[e Hout]]);
        rewrite Hout in Hget; discriminate Hget. }
  assert (Hwire : wire w1 = wire w ++ [GET key]).
  { destruct (get_outcome key w) as (v & r & [Hout|[e Hout]]);
      rewrite Hout in Hget; injection Hget as <- <-; reflexivity. }
  assert (Hnull : cached = JNull \/ cached <> JNull)
    by (destruct cached; (now left) || (right; discriminate)).
  destruct Hnull as [->|Hcached].
  - split.
    + rewrite (remember_after_miss key t _ w w1 Hget).
      destruct (resolve_then_set_wire key (Some t) callback w1) as [Hnone|[v Hone]].
      * left. now rewrite Hnone.
      * right. exists v. rewrite Hone, Hwire, <- app_assoc. reflexivity.
    + rewrite (forever_after_miss key _ w w1 Hget).
      destruct (resolve_then_set_wire key None callback w1) as [Hnone|[v Hone]].
      * left. now rewrite Hnone.
      * right. exists v. rewrite Hone, Hwire, <- app_assoc. reflexivity.
  - split; left.
    + now rewrite (remember_hit key t callback w w1 cached Hget Hcached).
    + now rewrite (forever_hit key callback w w1 cached Hget Hcached).
Qed.

(* --------------------------------------------------------------------- *)
(** ** The facade over the in-memory store *)
(* --------------------------------------------------------------------- *)

Lemma get_on_server (w : World Server) key :
  outage (redis w) = None ->
  get key w
  = (Return match live (redis w) key with
            | Some e => if truthy_string (payload e) then parse (payload e) else JNull
            | None => JNull
            end,
     sent w (redis w) (GET key)).
Proof.
  intros Hup.
  destruct (live (redis w) key) as [e|] eqn:Hlive.
  - apply get_found. simpl. unfold server_get, answer. now rewrite Hup, Hlive.
  - apply get_miss. simpl. unfold server_get, answer. now rewrite Hup, Hlive.
Qed.

Lemma exists_on_server (w : World Server) key :
  outage (redis w) = None ->
  exists_ key w
  = (Return match live (redis w) key with Some _ => true | None => false end,
     sent w (redis w) (EXISTS key)).
Proof.
  intros Hup. erewrite exists_ok.
  2:{ simpl. unfold server_exists, answer. rewrite Hup. reflexivity. }
  now destruct (live (redis w) key).
Qed.

Lemma set_on_server (w : World Server) key v ttl :
  outage (redis w) = None ->
  match ttl with Some t => (0 <= t)%Z | None => True end ->
  set key v ttl w
  = (Return (lit "OK"),
     sent w
       (store key
          (mkEntry (serialize v)
             match ttl with
             | Some t => if (t =? 0)%Z then None else Some (clock (redis w) + t)%Z
             | None => None
             end) (redis w))
       (write_command key v ttl)).
Proof.
  intros Hup Httl. apply set_ok. unfold write_command.
  destruct ttl as [t|]; [destruct (Z.eqb_spec t 0)|]; simpl;
    unfold server_set, server_setex, answer; rewrite Hup; try reflexivity.
  destruct (Z.ltb_spec 0 t); [reflexivity|lia].
Qed.

Lemma live_store_same (s : Server) key e :
  live (store key e s) key
  = match deadline e with
    | Some d => if (clock s <? d)%Z then Some e else None
    | None => Some e
    end.
Proof. unfold live, store. simpl. now rewrite lookup_insert_eq. Qed.

Lemma live_store_other (s : Server) key key' e :
  key <> key' -> live (store key e s) key' = live s key'.
Proof. intros Hne. unfold live, store. simpl. now rewrite lookup_insert_ne. Qed.

Lemma live_elapse_forever (s : Server) key e dt :
  db s !! key = Some e -> deadline e = None -> live (elapse dt s) key = Some e.
Proof. intros Hdb Hnone. unfold live, elapse. simpl. now rewrite Hdb, Hnone. Qed.

(** X10. An entry written with a TTL is gone once the TTL has passed: on
    a store that answers, after [set(k, v, t)] with [t > 0] and [t]
    seconds or more, [get(k)] returns [null], [exists(k)] returns
    [false], and neither logs anything. *)
Theorem entry_expires (w : World Server) (key : js_string) (v : Json)
  (t dt : Z) :
  outage (redis w) = None -> (0 < t)%Z -> (t <= dt)%Z ->
  let written := snd (set key v (Some t) w) in
  get key (later dt written)
    = (Return JNull, sent (later dt written) (redis (later dt written)) (GET key))
  /\ fst (exists_ key (later dt written)) = Return false
  /\ console (snd (get key (later dt written))) = console w.
Proof.
  intros Hup Ht Hdt written.
  assert (Hwritten : written
                     = sent w (store key (mkEntry (serialize v)
                                            (Some (clock (redis w) + t)%Z)) (redis w))
                         (SETEX key t (serialize v))).
  { subst written. rewrite (set_on_server w key v (Some t) Hup) by lia.
    unfold write_command. destruct (Z.eqb_spec t 0); [lia|reflexivity]. }
  assert (Hlive : live (redis (later dt written)) key = None).
  { rewrite Hwritten. unfold later, elapse, live, store. simpl.
    rewrite lookup_insert_eq. simpl.
    destruct (Z.ltb_spec (clock (redis w) + dt) (clock (redis w) + t));
      [lia|reflexivity]. }
  assert (Hup' : outage (redis (later dt written)) = None)
    by (rewrite Hwritten; exact Hup).
  rewrite (get_on_server _ key Hup'), (exists_on_server _ key Hup'), Hlive.
  repeat split. now rewrite Hwritten.
Qed.

Lemma entry_expires_witness :
  let written := snd (set (lit "short-key") (JObject [(lit "expire", JBool true)])
                        (Some 1%Z) (boot (mkServer 0 ∅ None))) in
  fst (get (lit "short-key") (later 2 written)) = Return JNull.
Proof.
  intros written.
  pose proof (entry_expires (boot (mkServer 0 ∅ None)) (lit "short-key")
                (JObject [(lit "expire", JBool true)]) 1 2
                eq_refl eq_refl ltac:(discriminate)) as [Hget _].
  fold written in Hget. now rewrite Hget.
Defined.

(** X11. An entry written without a TTL, or with the TTL zero, never
    expires: on a store that answers, for a well-formed value that is not
    a string, or a string that is neither empty nor a JSON text, [set]
    returns ['OK'] and [get(k)] returns the value after any number of
    seconds, whatever the key held before. *)
Theorem entry_without_ttl_persists (w : World Server) (key : js_string)
  (v : Json) (dt : Z) :
  wf_json v -> unambiguous v -> outage (redis w) = None -> (0 <= dt)%Z ->
  fst (set key v None w) = Return (lit "OK")
  /\ fst (get key (later dt (snd (set key v None w)))) = Return v
  /\ fst (set key v (Some 0%Z) w) = Return (lit "OK")
  /\ fst (get key (later dt (snd (set key v (Some 0%Z) w)))) = Return v.
Proof.
  intros Hwf Hplain Hup Hdt.
  destruct (parse_serialize v Hwf Hplain) as [Htruthy Hparse].
  rewrite (set_on_server w key v None Hup I).
  rewrite (set_on_server w key v (Some 0%Z) Hup) by (simpl; lia).
  simpl fst. simpl snd.
  assert (Hget : forall c,
             fst (get key (later dt (sent w (store key (mkEntry (serialize v) None)
                                                (redis w)) c))) = Return v).
  { intros c. rewrite get_on_server by exact Hup.
    unfold later. simpl redis.
    rewrite (live_elapse_forever _ key (mkEntry (serialize v) None));
      [|unfold store; simpl; apply lookup_insert_eq|reflexivity].
    simpl. now rewrite Htruthy, Hparse. }
  repeat split; apply Hget.
Qed.

Lemma entry_without_ttl_persists_witness :
  let w := boot (mkServer 0 ∅ None) in
  fst (get (lit "forever-key")
         (later 1000000 (snd (set (lit "forever-key")
                                (JObject [(lit "forever", JBool true)]) None w))))
  = Return (JObject [(lit "forever", JBool true)]).
Proof.
  apply (entry_without_ttl_persists (boot (mkServer 0 ∅ None)) (lit "forever-key")
           (JObject [(lit "forever", JBool true)]) 1000000).
  - apply wf_object; [apply NoDup_singleton|repeat constructor].
  - exact I.
  - reflexivity.
  - discriminate.
Defined.

(** X12. On a store that answers, [delete(k)] returns 1 when the key is
    there and 0 when it is not; afterwards [get(k)] returns [null] and
    [exists(k)] returns [false], and every other key reads as before. *)
Theorem delete_removes_the_key (w : World Server) (key : js_string) :
  outage (redis w) = None ->
  fst (delete key w)
    = Return (match live (redis w) key with Some _ => 1%Z | None => 0%Z end)
  /\ fst (get key (snd (delete key w))) = Return JNull
  /\ fst (exists_ key (snd (delete key w))) = Return false
  /\ (forall key', key' <> key ->
        fst (get key' (snd (delete key w))) = fst (get key' w)).
Proof.
  intros Hup.
  assert (Hdel : delete key w
                 = (Return (match live (redis w) key with Some _ => 1%Z | None => 0%Z end),
                    sent w (match live (redis w) key with
                            | Some _ => mkServer (clock (redis w))
                                          (base.delete key (db (redis w)))
                                          (outage (redis w))
                            | None => redis w
                            end) (DEL key))).
  { apply delete_ok. simpl. unfold server_del, answer. rewrite Hup.
    now destruct (live (redis w) key). }
  rewrite Hdel. simpl fst. simpl snd.
  assert (Hup' : outage (redis (sent w (match live (redis w) key with
                            | Some _ => mkServer (clock (redis w))
                                          (base.delete key (db (redis w)))
                                          (outage (redis w))
                            | None => redis w
                            end) (DEL key))) = None)
    by (simpl; now destruct (live (redis w) key)).
  split; [reflexivity|].
  rewrite !get_on_server, exists_on_server by assumption. simpl redis.
  assert (Hgone : live (match live (redis w) key with
                        | Some _ => mkServer (clock (redis w))
                                      (base.delete key (db (redis w)))
                                      (outage (redis w))
                        | None => redis w
                        end) key = None).
  { destruct (live (redis w) key) eqn:Hlive; [|exact Hlive].
    unfold live. simpl. now rewrite lookup_delete_eq. }
  rewrite Hgone. repeat split.
  intros key' Hne. rewrite !get_on_server by assumption. simpl.
  destruct (live (redis w) key) eqn:Hlive; [|reflexivity].
  unfold live at 1. simpl. rewrite lookup_delete_ne by congruence.
  reflexivity.
Qed.

Lemma delete_removes_the_key_witness :
  let w := snd (set (lit "delete-key") (JString (lit "delete")) (Some 3600%Z)
                  (boot (mkServer 0 ∅ None))) in
  fst (delete (lit "delete-key") w) = Return 1%Z
  /\ fst (get (lit "delete-key") (snd (delete (lit "delete-key") w))) = Return JNull.
Proof.
  intros w.
  destruct (delete_removes_the_key w (lit "delete-key") eq_refl)
    as (Hcount & Hget & _).
  split; [exact Hcount|exact Hget].
Defined.

(** X13. On a store that answers, [flush()] returns ['OK'] and
    afterwards [get] returns [null] and [exists] returns [false] for
    every key. *)
Theorem flush_empties_the_store (w : World Server) :
  outage (redis w) = None ->
  fst (flush w) = Return (lit "OK")
  /\ forall key,
       fst (get key (snd (flush w))) = Return JNull
       /\ fst (exists_ key (snd (flush w))) = Return false.
Proof.
  intros Hup.
  assert (Hflush : flush w
                   = (Return (lit "OK"),
                      sent w (mkServer (clock (redis w)) ∅ (outage (redis w)))
                        FLUSHALL)).
  { apply flush_ok. simpl. unfold server_flushall, answer. now rewrite Hup. }
  rewrite Hflush. split; [reflexivity|]. intros key. simpl snd.
  rewrite get_on_server, exists_on_server by exact Hup.
  unfold live. simpl. now rewrite lookup_empty.
Qed.

Lemma flush_empties_the_store_witness :
  let w := snd (set (lit "flash-key") (JString (lit "flash")) (Some 3600%Z)
                  (boot (mkServer 0 ∅ None))) in
  fst (flush w) = Return (lit "OK")
  /\ fst (get (lit "flash-key") (snd (flush w))) = Return JNull.
Proof.
  intros w.
  destruct (flush_empties_the_store w eq_refl) as [Hok Hkeys].
  split; [exact Hok|exact (proj1 (Hkeys (lit "flash-key")))].
Defined.

Lemma remember_on_server (w : World Server) key t
  (f : Server -> Completion Exn Json * Server) v r2 :
  outage (redis w) = None -> live (redis w) key = None ->
  f (redis w) = (Return v, r2) -> outage r2 = None -> (0 < t)%Z ->
  remember key t (Producer f) w
  = (Return v,
     mkWorld (store key (mkEntry (serialize v) (Some (clock r2 + t)%Z)) r2)
       (console w) (wire w ++ [GET key; SETEX key t (serialize v)])
       (S (invoked w))).
Proof.
  intros Hup Hlive Hf Hup2 Ht.
  assert (Hcmd : write_command key v (Some t) = SETEX key t (serialize v)).
  { unfold write_command. destruct (Z.eqb_spec t 0); [lia|reflexivity]. }
  rewrite <- Hcmd.
  apply remember_miss with (reply := lit "OK") (r1 := redis w) (r2 := r2).
  - simpl. unfold server_get, answer. now rewrite Hup, Hlive.
  - exact Hf.
  - rewrite Hcmd. simpl. unfold server_setex, answer. rewrite Hup2.
    destruct (Z.ltb_spec 0 t); [reflexivity|lia].
Qed.

(** X14. What [remember] computed is cached. On a store that answers,
    when the key is absent, [t > 0] and the source function returns a
    well-formed value [v] other than [null] that is not a string, or is a
    string neither empty nor a JSON text: [remember] returns [v]; a
    [get(k)] right after it returns [v]; and a second [remember] for the
    key, with any source, returns [v] without calling its source. *)
Theorem remember_then_cached (w : World Server) (key : js_string) (t : Z)
  (f : Server -> Completion Exn Json * Server) (v : Json) (r2 : Server)
  (again : Callback Server) :
  outage (redis w) = None -> live (redis w) key = None ->
  f (redis w) = (Return v, r2) -> outage r2 = None -> (0 < t)%Z ->
  wf_json v -> unambiguous v -> v <> JNull ->
  let first := remember key t (Producer f) w in
  fst first = Return v
  /\ invoked (snd first) = S (invoked w)
  /\ fst (get key (snd first)) = Return v
  /\ fst (remember key t again (snd first)) = Return v
  /\ invoked (snd (remember key t again (snd first))) = S (invoked w).
Proof.
  intros Hup Hlive Hf Hup2 Ht Hwf Hplain Hnull first.
  subst first. rewrite (remember_on_server w key t f v r2) by assumption.
  simpl fst. simpl snd.
  destruct (parse_serialize v Hwf Hplain) as [Htruthy Hparse].
  set (w1 := mkWorld _ _ _ _).
  assert (Hget : get key w1 = (Return v, sent w1 (redis w1) (GET key))).
  { rewrite get_on_server by exact Hup2. subst w1. simpl redis.
    rewrite live_store_same. simpl.
    destruct (Z.ltb_spec (clock r2) (clock r2 + t)); [|lia].
    simpl. now rewrite Htruthy, Hparse. }
  rewrite (remember_hit key t again w1 _ v Hget Hnull), Hget.
  repeat split.
Qed.

Lemma remember_then_cached_witness :
  let source := fun s : Server => (Return (JObject [(lit "remembered", JBool true)]), s) in
  let first := remember (lit "remember-key") 3600 (Producer source)
                 (boot (mkServer 0 ∅ None)) in
  fst (get (lit "remember-key") (snd first))
    = Return (JObject [(lit "remembered", JBool true)])
  /\ invoked (snd (remember (lit "remember-key") 3600 (Producer source) (snd first)))
     = 1%nat.
Proof.
  intros source first.
  destruct (remember_then_cached (boot (mkServer 0 ∅ None)) (lit "remember-key")
              3600 source (JObject [(lit "remembered", JBool true)])
              (mkServer 0 ∅ None) (Producer source))
    as (_ & _ & Hget & _ & Hinvoked);
    [reflexivity | reflexivity | reflexivity | reflexivity | reflexivity
    | apply wf_object; [apply NoDup_singleton|repeat constructor]
    | exact I | discriminate |].
  split; [exact Hget|exact Hinvoked].
Defined.

(** X15. A source that yields [null] is never cached: [null] is stored
    as the text [null], which [get] reads back as the absent value. On a
    store that answers, with the key absent and [t > 0], two calls of
    [remember] in a row call such a source twice. *)
Theorem null_is_never_cached (w : World Server) (key : js_string) (t : Z)
  (f : Server -> Completion Exn Json * Server) :
  (forall s, f s = (Return JNull, s)) ->
  outage (redis w) = None -> live (redis w) key = None -> (0 < t)%Z ->
  let first := remember key t (Producer f) w in
  let second := remember key t (Producer f) (snd first) in
  fst first = Return JNull
  /\ fst (exists_ key (snd first)) = Return true
  /\ fst second = Return JNull
  /\ invoked (snd second) = S (S (invoked w)).
Proof.
  intros Hf Hup Hlive Ht first second.
  assert (Hfirst : first
                   = (Return JNull,
                      mkWorld (store key (mkEntry (lit "null")
                                            (Some (clock (redis w) + t)%Z)) (redis w))
                        (console w)
                        (wire w ++ [GET key; SETEX key t (lit "null")])
                        (S (invoked w)))).
  { subst first. now apply remember_on_server. }
  subst second. rewrite Hfirst. simpl fst. simpl snd.
  set (w1 := mkWorld _ _ _ _).
  assert (Hlive1 : live (redis w1) key
                   = Some (mkEntry (lit "null") (Some (clock (redis w) + t)%Z))).
  { subst w1. simpl redis. rewrite live_store_same. simpl.
    destruct (Z.ltb_spec (clock (redis w)) (clock (redis w) + t));
      [reflexivity|lia]. }
  assert (Hget : get key w1 = (Return JNull, sent w1 (redis w1) (GET key))).
  { rewrite get_on_server by exact Hup. now rewrite Hlive1. }
  rewrite exists_on_server, Hlive1 by exact Hup.
  rewrite (remember_after_miss key t _ w1 _ Hget).
  unfold bind. erewrite resolve_producer by apply Hf. cbv beta iota.
  erewrite (set_on_server _ key JNull (Some t)) by (simpl; (exact Hup || lia)).
  repeat split.
Qed.

Lemma null_is_never_cached_witness :
  let source := Producer (fun s : Server => (Return JNull, s)) in
  let first := remember (lit "k") 60 source (boot (mkServer 0 ∅ None)) in
  invoked (snd (remember (lit "k") 60 source (snd first))) = 2%nat.
Proof.
  intros source first.
  destruct (null_is_never_cached (boot (mkServer 0 ∅ None)) (lit "k") 60
              (fun s : Server => (Return JNull, s)))
    as (_ & _ & _ & Hinvoked);
    [reflexivity | reflexivity | reflexivity | reflexivity |].
  exact Hinvoked.
Defined.

Lemma set_negative_on_server (w : World Server) key v (t : Z) :
  outage (redis w) = None -> (t < 0)%Z ->
  set key v (Some t) w
  = (Throw (ExnCacheError
              (new_CacheError (lit "SET")
                 (lit "Cache SET operation failed: ERR invalid expire time in 'setex' command")
                 None)),
     logged w (redis w) (SETEX key t (serialize v))
       (lit "Cache SET operation failed: ERR invalid expire time in 'setex' command")).
Proof.
  intros Hup Ht.
  assert (Hcmd : write_command key v (Some t) = SETEX key t (serialize v)).
  { unfold write_command. destruct (Z.eqb_spec t 0); [lia|reflexivity]. }
  rewrite <- Hcmd.
  rewrite (set_error key v (Some t) w
             (mkError (lit "ReplyError")
                (lit "ERR invalid expire time in 'setex' command")) (redis w));
    [reflexivity|].
  rewrite Hcmd. simpl. unfold server_setex, answer. rewrite Hup.
  destruct (Z.ltb_spec 0 t); [lia|reflexivity].
Qed.

(** X16. A negative TTL reaches the store, which refuses it: on a store
    that answers, [set(k, v, t)] with [t < 0] logs the failure, throws a
    CacheError of operation [SET] and leaves the store as it was. *)
Theorem negative_ttl_is_refused (w : World Server) (key : js_string)
  (v : Json) (t : Z) :
  outage (redis w) = None -> (t < 0)%Z ->
  exists ce,
    set key v (Some t) w
    = (Throw (ExnCacheError ce),
       mkWorld (redis w)
         (console w
            ++ [lit "Cache SET operation failed: ERR invalid expire time in 'setex' command"])
         (wire w ++ [SETEX key t (serialize v)]) (invoked w))
    /\ operation ce = lit "SET".
Proof.
  intros Hup Ht. eexists. split.
  - now apply set_negative_on_server.
  - reflexivity.
Qed.

Lemma negative_ttl_is_refused_witness :
  exists ce,
    fst (set (lit "k") (JString (lit "v")) (Some (-5)%Z) (boot (mkServer 0 ∅ None)))
    = Throw (ExnCacheError ce)
    /\ operation ce = lit "SET".
Proof.
  destruct (negative_ttl_is_refused (boot (mkServer 0 ∅ None)) (lit "k")
              (JString (lit "v")) (-5) eq_refl eq_refl) as (ce & Hset & Hop).
  exists ce. rewrite Hset. split; [reflexivity|exact Hop].
Defined.

(** X17. A write touches one key: on a store that answers, whatever
    [set(k, v, ttl)] does, every other key reads as before. *)
Theorem set_leaves_other_keys (w : World Server) (key key' : js_string)
  (v : Json) (ttl : option Z) :
  outage (redis w) = None -> key' <> key ->
  fst (get key' (snd (set key v ttl w))) = fst (get key' w)
  /\ fst (exists_ key' (snd (set key v ttl w))) = fst (exists_ key' w).
Proof.
  intros Hup Hne.
  assert (Hredis : exists e,
             redis (snd (set key v ttl w)) = store key e (redis w)
             \/ redis (snd (set key v ttl w)) = redis w).
  { destruct ttl as [t|]; [destruct (Z.lt_ge_cases t 0)|].
    - exists (mkEntry [] None). right.
      now rewrite set_negative_on_server.
    - eexists. left. now rewrite set_on_server.
    - eexists. left. now rewrite set_on_server. }
  destruct Hredis as (e & Hredis).
  assert (Hup' : outage (redis (snd (set key v ttl w))) = None)
    by (destruct Hredis as [-> | ->]; exact Hup).
  assert (Hlive : live (redis (snd (set key v ttl w))) key' = live (redis w) key').
  { destruct Hredis as [-> | ->]; [|reflexivity].
    apply live_store_other. congruence. }
  rewrite !get_on_server, !exists_on_server by assumption.
  simpl fst. now rewrite Hlive.
Qed.

Lemma set_leaves_other_keys_witness :
  let w := snd (set (lit "a") (JString (lit "1st")) None (boot (mkServer 0 ∅ None))) in
  fst (get (lit "a") (snd (set (lit "b") (JString (lit "2nd")) (Some 60%Z) w)))
  = fst (get (lit "a") w).
Proof.
  intros w.
  exact (proj1 (set_leaves_other_keys w (lit "b") (lit "a") (JString (lit "2nd"))
                  (Some 60%Z) eq_refl ltac:(discriminate))).
Defined.

(* --------------------------------------------------------------------- *)
(** ** [serialize] and [parse], without the store *)
(* --------------------------------------------------------------------- *)

Lemma parse_chars_shorter s :
  forall str r,
    parse_chars s = Some (str, r) -> (length str + length r < length s)%nat.
Proof.
  induction s as [s IH] using (induction_ltof1 _ (@length N)).
  unfold ltof in IH. intros str r. destruct s as [|c s]; [discriminate|].
  simpl. destruct (c =? 34); [intros [= <- ->]; simpl; lia|].
  destruct (c =? 92).
  - destruct s as [|e s1]; [discriminate|]. destruct (e =? 117).
    + destruct s1 as [|h1 [|h2 [|h3 [|h4 s2]]]]; try discriminate.
      destruct (hex_value h1), (hex_value h2), (hex_value h3), (hex_value h4);
        try discriminate.
      destruct (parse_chars s2) as [[str' r']|] eqn:Hrest; [|discriminate].
      intros [= <- ->]. apply IH in Hrest; simpl in *; lia.
    + destruct (simple_escape e); [|discriminate].
      destruct (parse_chars s1) as [[str' r']|] eqn:Hrest; [|discriminate].
      intros [= <- ->]. apply IH in Hrest; simpl in *; lia.
  - destruct (c <? 32); [discriminate|].
    destruct (parse_chars s) as [[str' r']|] eqn:Hrest; [|discriminate].
    intros [= <- ->]. apply IH in Hrest; simpl in *; lia.
Qed.

Lemma parse_scalar_string s str r :
  parse_scalar s = Some (JString str, r) ->
  (length str + length r < length s)%nat.
Proof.
  unfold parse_scalar. destruct s as [|c s]; [discriminate|].
  repeat match goal with
         | |- context [if ?b then _ else _] => destruct b
         end.
  - destruct (expect _ s); discriminate.
  - destruct (expect _ s); discriminate.
  - destruct (expect _ s); discriminate.
  - destruct (parse_chars s) as [[str' r']|] eqn:Hr; [|discriminate].
    intros [= <- ->]. apply parse_chars_shorter in Hr. simpl. lia.
  - destruct (parse_number (c :: s)) as [[n r']|]; discriminate.
Qed.

Lemma parse_value_string_shorter f s str r :
  parse_value f s = Some (JString str, r) ->
  (length str + length r < length s)%nat.
Proof.
  destruct f as [|f]; [discriminate|]. rewrite parse_value_eq.
  pose proof (skip_ws_length s) as Hskip.
  destruct (skip_ws s) as [|c rest]; [discriminate|].
  destruct (c =? 91); [|destruct (c =? 123)].
  - destruct (closing_bracket_cases (skip_ws rest)) as [[r0 ->]|Hother];
      [discriminate|].
    rewrite Hother. destruct (parse_elements f rest) as [[items r']|];
      discriminate.
  - destruct (closing_brace_cases (skip_ws rest)) as [[r0 ->]|Hother];
      [discriminate|].
    rewrite Hother. destruct (parse_members f rest) as [[members r']|];
      discriminate.
  - intros Hscalar. apply parse_scalar_string in Hscalar. lia.
Qed.

(** A text never decodes to itself as a string: the quotes are gone. *)
Lemma JSON_parse_not_itself s : JSON_parse s <> Some (JString s).
Proof.
  unfold JSON_parse.
  destruct (parse_value _ s) as [[v rest]|] eqn:Hparse; [|discriminate].
  destruct (skip_ws rest); [|discriminate].
  intros [= ->]. apply parse_value_string_shorter in Hparse. lia.
Qed.

(** X18. [parse] after [serialize], exactly: for a well-formed value,
    [parse(serialize(v))] is [v] if and only if [v] is not a string that
    is itself a JSON text. Numbers, booleans, [null], arrays and objects
    always come back; so does the empty string. *)
Theorem parse_serialize_exact (v : Json) :
  wf_json v ->
  parse (serialize v) = v
  <-> match v with JString s => JSON_parse s = None | _ => True end.
Proof.
  intros Hwf. split.
  - destruct v as [| | |s| |]; trivial. simpl. unfold parse.
    destruct (JSON_parse s) as [v'|] eqn:Hparse; [|reflexivity].
    intros ->. now apply JSON_parse_not_itself in Hparse.
  - intros Hplain. destruct v as [| | |s| |];
      try (change (serialize ?x) with (JSON_stringify x); unfold parse;
           now rewrite JSON_parse_stringify).
    simpl. unfold parse. now rewrite Hplain.
Qed.

Lemma parse_serialize_exact_witness :
  parse (serialize (JArray [JNumber (number_of_Z (-120)); JString (lit "a,b")]))
  = JArray [JNumber (number_of_Z (-120)); JString (lit "a,b")].
Proof.
  apply (parse_serialize_exact
           (JArray [JNumber (number_of_Z (-120)); JString (lit "a,b")])).
  - apply wf_array. repeat apply List.Forall_cons; [| apply wf_string | apply List.Forall_nil].
    apply wf_num. vm_compute. repeat split; try congruence.
    repeat constructor.
  - exact I.
Defined.

(** X19. The collision of the two encodings: a string that holds the
    JSON text of a well-formed value [v] is another value than [v], is
    stored as that same text, and is read back as [v]. *)
Theorem stringified_text_reads_as_value (v : Json) :
  wf_json v ->
  JString (JSON_stringify v) <> v
  /\ serialize (JString (JSON_stringify v)) = JSON_stringify v
  /\ parse (serialize (JString (JSON_stringify v))) = v.
Proof.
  intros Hwf. repeat split.
  - intros Heq. pose proof (JSON_parse_stringify v Hwf) as Hparse.
    rewrite <- Heq in Hparse at 2. now apply JSON_parse_not_itself in Hparse.
  - simpl. unfold parse. now rewrite JSON_parse_stringify.
Qed.

Lemma stringified_text_reads_as_value_witness :
  parse (serialize (JString (lit "[true,null]"))) = JArray [JBool true; JNull].
Proof.
  apply (stringified_text_reads_as_value (JArray [JBool true; JNull])).
  apply wf_array. repeat apply List.Forall_cons;
    [apply wf_bool | apply wf_null | apply List.Forall_nil].
Defined.

(* --------------------------------------------------------------------- *)
(** ** Construction, the other arguments *)
(* --------------------------------------------------------------------- *)

(** X20. Facades built from the same [Redis] instance share it: each
    construction keeps the reference and creates no client. *)
Theorem facades_share_a_Redis_instance (h : Construction.Heap) (ref : nat)
  (o : Construction.ClientObject) (rest1 rest2 : list Construction.Arg) :
  h !! ref = Some o ->
  Construction.class_of o = Construction.RedisClass ->
  let '(first, h1) := Construction.new_Cache (Construction.ArgObject ref :: rest1) h in
  let '(second, h2) := Construction.new_Cache (Construction.ArgObject ref :: rest2) h1 in
  Construction.client first = ref
  /\ Construction.client second = ref
  /\ h2 = h.
Proof.
  intros Hlook Hclass.
  rewrite (constructor_keeps_Redis_instance h ref o rest1 Hlook Hclass).
  rewrite (constructor_keeps_Redis_instance h ref o rest2 Hlook Hclass).
  repeat split.
Qed.

Lemma facades_share_a_Redis_instance_witness :
  let h := [Construction.mkClient Construction.RedisClass [Construction.ArgNumber 6379]] in
  let '(first, h1) := Construction.new_Cache [Construction.ArgObject 0] h in
  let '(second, h2) := Construction.new_Cache [Construction.ArgObject 0] h1 in
  Construction.client first = 0%nat
  /\ Construction.client second = 0%nat
  /\ h2 = h.
Proof.
  exact (facades_share_a_Redis_instance
           [Construction.mkClient Construction.RedisClass [Construction.ArgNumber 6379]]
           0 (Construction.mkClient Construction.RedisClass [Construction.ArgNumber 6379])
           [] [] eq_refl eq_refl).
Defined.

(** X21. With anything but a [Redis] instance in front (no argument, a
    port, a host, a path, an options object), the constructor creates a
    client of class [Redis] from exactly the arguments it was given; the
    reference is new, the objects already on the heap stay as they are,
    and two constructions give two clients. *)
Theorem constructor_creates_a_client (args : list Construction.Arg)
  (h : Construction.Heap) :
  Construction.instanceof_Redis h (head args) = false ->
  let '(cache, h') := Construction.new_Cache args h in
  h !! Construction.client cache = None
  /\ h' !! Construction.client cache
     = Some (Construction.mkClient Construction.RedisClass args)
  /\ (forall ref o, h !! ref = Some o -> h' !! ref = Some o)
  /\ (Construction.instanceof_Redis h' (head args) = false ->
      Construction.client (fst (Construction.new_Cache args h'))
      <> Construction.client cache).
Proof.
  intros Hclass. unfold Construction.new_Cache. rewrite Hclass.
  unfold Construction.new_Redis, Construction.allocate, Construction.client.
  simpl. repeat split.
  - apply lookup_ge_None. lia.
  - now apply list_lookup_middle.
  - intros ref o Hlook. now apply lookup_app_l_Some.
  - intros Hclass'. rewrite Hclass'. simpl. rewrite length_app. simpl. lia.
Qed.

Lemma constructor_creates_a_client_witness :
  let '(cache, h') :=
    Construction.new_Cache [Construction.ArgNumber 6379; Construction.ArgString (lit "127.0.0.1")] [] in
  h' !! Construction.client cache
  = Some (Construction.mkClient Construction.RedisClass
            [Construction.ArgNumber 6379; Construction.ArgString (lit "127.0.0.1")]).
Proof.
  exact (proj1 (proj2 (constructor_creates_a_client
                         [Construction.ArgNumber 6379;
                          Construction.ArgString (lit "127.0.0.1")] [] eq_refl))).
Defined.
